(** * Image cache: a disk-backed URL cache with LRU bookkeeping

    Shallow embedding of [src/cpp/image_cache_plain.cpp] (the index-driven
    variant, built on the [LRUCache] template) and of
    [src/cpp/image_cache_functools.cpp] (the scan-driven variant, which
    sorts the cache directory by modification time), followed by the
    properties of the cache that the specification states.

    Conventions.
    - A [std::string] is a [string]; its bytes are the character codes. A
      [size_t] that counts things is a [nat]; [long], [CURLcode] and
      [std::time_t] values are in [Z].
    - OpenSSL's [MD5] is the algorithm of RFC 1321, on 32-bit words kept in
      [Z] with the wrap-around written out.
    - [std::filesystem::path] is the POSIX one: [/] separates components.
    - The cache directory is a finite map from file names to regular files.
      Every path the two programs touch is [cache_dir / name] with [name]
      free of separators ([get_cache_path_filename]), so the name stands
      for the path.
    - What a call meets outside the program is an [Env]: the result of
      [curl_easy_perform], whether [std::ofstream] could open the cache
      file, and the clock that stamps a written file. A stream that opened
      writes all its bytes. [fs::exists] throws on a name that is too long
      ([fs_exists]); the model of a call holds where it does not, and a
      property of every url says so in a hypothesis. The other filesystem
      calls do not throw.
    - Undefined behaviour of the C++ code is the result [None].
    - Each effect on the outside world, and each update of the recency
      index, is also recorded in program order in a trace of [Event]s; the
      trace is how "no remote fetch" and "written before indexed" are
      stated. *)

From Stdlib Require Import ZArith Lia List String Ascii.
From stdpp Require Import gmap strings list fin_maps sorting.

Local Open Scope Z_scope.

(** ** The digest: OpenSSL's [MD5], as RFC 1321 defines it *)

Module MD5.

Definition mask32 (x : Z) : Z := x mod 2 ^ 32.

Definition add32 (x y : Z) : Z := mask32 (x + y).

Definition not32 (x : Z) : Z := 2 ^ 32 - 1 - x.

Definition rotl32 (x : Z) (c : Z) : Z :=
  mask32 (Z.lor (Z.shiftl x c) (Z.shiftr x (32 - c))).

(** Per-round shift amounts. *)
Definition S_table : list Z :=
  [ 7; 12; 17; 22;  7; 12; 17; 22;  7; 12; 17; 22;  7; 12; 17; 22;
    5;  9; 14; 20;  5;  9; 14; 20;  5;  9; 14; 20;  5;  9; 14; 20;
    4; 11; 16; 23;  4; 11; 16; 23;  4; 11; 16; 23;  4; 11; 16; 23;
    6; 10; 15; 21;  6; 10; 15; 21;  6; 10; 15; 21;  6; 10; 15; 21 ].

(** [K_table[i] = floor (2^32 * abs (sin (i + 1)))]. *)
Definition K_table : list Z :=
  [ 0xd76aa478; 0xe8c7b756; 0x242070db; 0xc1bdceee;
    0xf57c0faf; 0x4787c62a; 0xa8304613; 0xfd469501;
    0x698098d8; 0x8b44f7af; 0xffff5bb1; 0x895cd7be;
    0x6b901122; 0xfd987193; 0xa679438e; 0x49b40821;
    0xf61e2562; 0xc040b340; 0x265e5a51; 0xe9b6c7aa;
    0xd62f105d; 0x02441453; 0xd8a1e681; 0xe7d3fbc8;
    0x21e1cde6; 0xc33707d6; 0xf4d50d87; 0x455a14ed;
    0xa9e3e905; 0xfcefa3f8; 0x676f02d9; 0x8d2a4c8a;
    0xfffa3942; 0x8771f681; 0x6d9d6122; 0xfde5380c;
    0xa4beea44; 0x4bdecfa9; 0xf6bb4b60; 0xbebfbc70;
    0x289b7ec6; 0xeaa127fa; 0xd4ef3085; 0x04881d05;
    0xd9d4d039; 0xe6db99e5; 0x1fa27cf8; 0xc4ac5665;
    0xf4292244; 0x432aff97; 0xab9423a7; 0xfc93a039;
    0x655b59c3; 0x8f0ccc92; 0xffeff47d; 0x85845dd1;
    0x6fa87e4f; 0xfe2ce6e0; 0xa3014314; 0x4e0811a1;
    0xf7537e82; 0xbd3af235; 0x2ad7d2bb; 0xeb86d391 ].

(** Little-endian load of a 32-bit word from four bytes. *)
Definition word_of_bytes (bs : list Z) : Z :=
  match bs with
  | [b0; b1; b2; b3] =>
      Z.lor b0 (Z.lor (Z.shiftl b1 8) (Z.lor (Z.shiftl b2 16) (Z.shiftl b3 24)))
  | _ => 0
  end.

(** Little-endian store of the [n] low bytes of [x]. *)
Fixpoint bytes_of_word (n : nat) (x : Z) : list Z :=
  match n with
  | O => []
  | S n' => Z.land x 255 :: bytes_of_word n' (Z.shiftr x 8)
  end.

(** Cut a byte sequence into groups of [k] bytes ([fuel] bounds the number
    of groups). *)
Fixpoint chunks (fuel : nat) (k : nat) (bs : list Z) : list (list Z) :=
  match fuel with
  | O => []
  | S fuel' =>
      match bs with
      | [] => []
      | _ => take k bs :: chunks fuel' k (drop k bs)
      end
  end.

(** Message padding: one [0x80] byte, zero bytes up to 56 modulo 64, then
    the bit length as a 64-bit little-endian integer. *)
Definition pad (msg : list Z) : list Z :=
  let len := Z.of_nat (length msg) in
  let zeros := Z.to_nat ((55 - len) mod 64) in
  msg ++ [128] ++ replicate zeros 0 ++ bytes_of_word 8 ((8 * len) mod 2 ^ 64).

Record regs := Regs { rA : Z; rB : Z; rC : Z; rD : Z }.

Definition init_regs : regs :=
  Regs 0x67452301 0xefcdab89 0x98badcfe 0x10325476.

(** One of the 64 operations on a block whose words are [M]. *)
Definition step (M : list Z) (r : regs) (i : nat) : regs :=
  let '(Regs a b c d) := r in
  let iz := Z.of_nat i in
  let '(f, g) :=
    if (iz <? 16) then
      (Z.lor (Z.land b c) (Z.land (not32 b) d), iz)
    else if (iz <? 32) then
      (Z.lor (Z.land d b) (Z.land (not32 d) c), (5 * iz + 1) mod 16)
    else if (iz <? 48) then
      (Z.lxor b (Z.lxor c d), (3 * iz + 5) mod 16)
    else
      (Z.lxor c (Z.lor b (not32 d)), (7 * iz) mod 16) in
  let f' := add32 (add32 (add32 f a) (nth i K_table 0)) (nth (Z.to_nat g) M 0) in
  Regs d (add32 b (rotl32 f' (nth i S_table 0))) b c.

Definition process_block (r : regs) (block : list Z) : regs :=
  let M := map word_of_bytes (chunks 16 4 block) in
  let r' := fold_left (step M) (seq 0 64) r in
  Regs (add32 (rA r) (rA r')) (add32 (rB r) (rB r'))
       (add32 (rC r) (rC r')) (add32 (rD r) (rD r')).

(** The 16 digest bytes of a byte sequence. *)
Definition digest (msg : list Z) : list Z :=
  let p := pad msg in
  let r := fold_left process_block (chunks (length p) 64 p) init_regs in
  bytes_of_word 4 (rA r) ++ bytes_of_word 4 (rB r) ++
  bytes_of_word 4 (rC r) ++ bytes_of_word 4 (rD r).

End MD5.

Local Open Scope string_scope.
Local Open Scope list_scope.

Definition bytes_of_string (s : string) : list Z :=
  map (fun c => Z.of_nat (Ascii.nat_of_ascii c)) (list_ascii_of_string s).

(** [MD5_DIGEST_LENGTH] of <openssl/md5.h>. *)
Definition MD5_DIGEST_LENGTH : nat := 16.

Definition hex_digit (d : Z) : Ascii.ascii :=
  Ascii.ascii_of_nat (Z.to_nat (if (d <? 10)%Z then 48 + d else 87 + d)%Z).

(** [ss << std::hex << std::setw(2) << std::setfill('0') << (int)digest[i]]:
    two lower-case hexadecimal digits per byte. *)
Definition hex_byte (b : Z) : string :=
  String (hex_digit (b / 16)) (String (hex_digit (b mod 16)) EmptyString).

(** [ImageCache::md5_hash] (the same in both files). *)
Definition md5_hash (input : string) : string :=
  let digest := MD5.digest (bytes_of_string input) in
  fold_left (fun ss i => ss +:+ hex_byte (nth i digest 0%Z))
            (seq 0 MD5_DIGEST_LENGTH) EmptyString.

(** ** [std::filesystem::path] on a POSIX system *)

(** [s.rfind(c)]: the position of the last [c] in [s]. *)
Fixpoint rfind (c : ascii) (s : string) : option nat :=
  match s with
  | EmptyString => None
  | String d rest =>
      match rfind c rest with
      | Some i => Some (S i)
      | None => if Ascii.eqb d c then Some O else None
      end
  end.

(** [s.substr(n)]. *)
Fixpoint substr_from (n : nat) (s : string) : string :=
  match n, s with
  | O, _ => s
  | S n', String _ rest => substr_from n' rest
  | S _, EmptyString => EmptyString
  end.

(** [path::filename()]: what follows the last directory separator. *)
Definition path_filename (p : string) : string :=
  match rfind "/" p with
  | Some i => substr_from (S i) p
  | None => p
  end.

(** [path::extension()]: the suffix of [filename()] that starts at its last
    period; empty when the file name is [.] or [..], has no period, or has
    its only period in first position. *)
Definition path_extension (p : string) : string :=
  let f := path_filename p in
  if decide (f = "." ∨ f = "..") then EmptyString
  else match rfind "." f with
       | None => EmptyString
       | Some O => EmptyString
       | Some pos => substr_from pos f
       end.

(** [operator/] with a relative right operand: a separator is added unless
    the left operand is empty or already ends with one. *)
Definition path_append (dir name : string) : string :=
  match rfind "/" dir with
  | Some i => if decide (S i = String.length dir) then dir +:+ name
              else dir +:+ "/" +:+ name
  | None => if decide (dir = EmptyString) then name else dir +:+ "/" +:+ name
  end.

(** [ImageCache::url_to_filename] (the same in both files). *)
Definition url_to_filename (url : string) : string :=
  let hash := md5_hash url in
  let extension := path_extension url in
  let extension := if decide (extension = EmptyString) then ".jpg" else extension in
  hash +:+ extension.

(** [ImageCache::get_cache_path] (the same in both files). *)
Definition get_cache_path (cache_dir url : string) : string :=
  path_append cache_dir (url_to_filename url).

(** ** The outside world *)

(** A regular file of the cache directory: [fs::last_write_time] in seconds
    ([std::time_t]) and the bytes. *)
Record File := { mtime : Z; content : string }.

(** The regular files of the cache directory, by file name. *)
Abbreviation Directory := (gmap string File).

(** What one call of [fetch_impl] meets outside the program. *)
Record Env := {
  res : Z;                  (* the [CURLcode] of [curl_easy_perform] *)
  response_code : Z;        (* [CURLINFO_RESPONSE_CODE] *)
  response_data : string;   (* the bytes [WriteCallback] collected *)
  ofstream_ok : bool;       (* whether [std::ofstream] opened the file *)
  now : Z                   (* the clock that stamps a written file *)
}.

Definition CURLE_OK : Z := 0.

(** Lines printed on [std::cout]. *)
Inductive Message :=
| CachedImage (cache_path : string) (bytes : nat)
| ErrorHTTP (response_code : Z)
| ErrorFetching (res : Z)
| UsingCachedImage (cache_path : string)
| EvictedLRUFile (name : string)
| ClearedCacheDirectory (cache_dir : string).

Inductive Event :=
| Fetched (url : string)                (* [curl_easy_perform], [CURLOPT_URL] = url *)
| Wrote (name data : string) (ok : bool) (* [std::ofstream] on [cache_dir / name] *)
| Removed (name : string)               (* [fs::remove (cache_dir / name)] *)
| Indexed (url : string)                (* [lru_cache.put] or [touch_url] after a download *)
| Touched (url : string)                (* [lru_cache.touch] or [touch_url] on a hit *)
| Unindexed (url : string)              (* the erasure of a forced refresh *)
| Printed (m : Message).

(** [std::ofstream file(path, std::ios::binary); file.write(..); file.close()]:
    when the stream opens, the file is created or truncated and holds the
    data; when it does not, every later stream operation is a no-op. *)
Definition write_file (name data : string) (env : Env) (d : Directory) : Directory :=
  if ofstream_ok env then <[name := {| mtime := now env; content := data |}]> d
  else d.

(** What [fs::exists (cache_dir / name)] answers when it returns: whether
    the directory holds the file. *)
Definition file_exists (name : string) (d : Directory) : bool :=
  bool_decide (is_Some (d !! name)).



(** ** [LRUCache<Key, Value>] of image_cache_plain.cpp *)

Module LRUCache.
Section Template.
Context {Key : Type} `{Countable Key} {Value : Type}.

(** [items] is the [std::list] of pairs, front first. [cache] is the
    [std::unordered_map] from keys to list iterators: an iterator designates
    the node that carries its key, so the map is represented by its set of
    keys, and an operation through [it->second] acts on the node with that
    key. *)
Record state := State {
  max_size : nat;
  items : list (Key * Value);
  cache : gset Key
}.

(** The node an iterator stored under [key] designates. *)
Fixpoint node_of (key : Key) (l : list (Key * Value)) : option (Key * Value) :=
  match l with
  | [] => None
  | n :: l' => if decide (n.1 = key) then Some n else node_of key l'
  end.

(** [items.erase(it)] for the iterator stored under [key]. *)
Fixpoint erase_node (key : Key) (l : list (Key * Value)) : list (Key * Value) :=
  match l with
  | [] => []
  | n :: l' => if decide (n.1 = key) then l' else n :: erase_node key l'
  end.

(** [items.splice(items.begin(), items, it)] for the iterator stored under
    [key]: the node moves to the front. *)
Definition splice_front (key : Key) (l : list (Key * Value)) : list (Key * Value) :=
  match node_of key l with
  | Some n => n :: erase_node key l
  | None => l
  end.

(** [LRUCache(size_t max_size)]. *)
Definition new (max_size : nat) : state := State max_size [] ∅.

(** [put]. The result is [None] where the C++ code has undefined behaviour:
    [items.back()] on an empty list. *)
Definition put (key : Key) (value : Value) (c : state) : option state :=
  if decide (key ∈ cache c) then
    let items' := erase_node key (items c) in
    let cache' := cache c ∖ {[key]} in
    Some (State (max_size c) ((key, value) :: items') ({[key]} ∪ cache'))
  else if decide (max_size c ≤ length (items c))%nat then
    match last (items c) with
    | Some last =>
        let cache' := cache c ∖ {[last.1]} in
        let items' := removelast (items c) in
        Some (State (max_size c) ((key, value) :: items') ({[key]} ∪ cache'))
    | None => None
    end
  else
    Some (State (max_size c) ((key, value) :: items c) ({[key]} ∪ cache c)).

(** [get]. *)
Definition get (key : Key) (c : state) : option Value * state :=
  if decide (key ∈ cache c) then
    let items' := splice_front key (items c) in
    (snd <$> node_of key items', State (max_size c) items' (cache c))
  else (None, c).

(** [touch]. *)
Definition touch (key : Key) (c : state) : state :=
  if decide (key ∈ cache c) then
    State (max_size c) (splice_front key (items c)) (cache c)
  else c.

(** [contains]. *)
Definition contains (key : Key) (c : state) : bool :=
  bool_decide (key ∈ cache c).

(** [clear]. *)
Definition clear (c : state) : state := State (max_size c) [] ∅.

(** [size]. *)
Definition size (c : state) : nat := length (items c).

(** The keys of the list, most recently used first. *)
Definition keys (c : state) : list Key := (items c).*1.

(** The two containers describe the same entries, one node per key. *)
Definition wf (c : state) : Prop :=
  NoDup (keys c) ∧ ∀ k, k ∈ cache c ↔ k ∈ keys c.

End Template.
Global Arguments state : clear implicits.
Global Arguments state Key {_ _} Value.
End LRUCache.

(** ** image_cache_plain.cpp *)

Module Plain.

(** The [ImageCache] object (the [CURL*] handle apart), the cache directory
    it works on, and the trace of what happened so far. *)
Record State := {
  cache_dir : string;
  max_size : nat;
  lru_cache : LRUCache.state string string;
  files : Directory;
  trace : list Event
}.

Definition with_lru (l : LRUCache.state string string) (st : State) : State :=
  {| cache_dir := cache_dir st; max_size := max_size st; lru_cache := l;
     files := files st; trace := trace st |}.

Definition with_files (d : Directory) (st : State) : State :=
  {| cache_dir := cache_dir st; max_size := max_size st;
     lru_cache := lru_cache st; files := d; trace := trace st |}.

Definition emit (e : Event) (st : State) : State :=
  {| cache_dir := cache_dir st; max_size := max_size st;
     lru_cache := lru_cache st; files := files st; trace := trace st ++ [e] |}.

(** The constructor, on a cache directory that holds the files [d]. *)
Definition new (cache_dir : string) (max_size : nat) (d : Directory) : State :=
  {| cache_dir := cache_dir; max_size := max_size;
     lru_cache := LRUCache.new max_size; files := d; trace := [] |}.

(** [evict_lru]: the body of the [if] holds comments only. *)
Definition evict_lru (st : State) : State :=
  if decide (max_size st ≤ LRUCache.size (lru_cache st))%nat then st else st.

(** [fetch_impl]. The outer [option] is [None] on undefined behaviour, the
    inner one is the [std::optional<fs::path>] the function returns. *)
Definition fetch_impl (url : string) (env : Env) (st : State)
  : option (option string * State) :=
  let cache_path := get_cache_path (cache_dir st) url in
  let st := evict_lru st in
  let st := emit (Fetched url) st in
  if decide (res env = CURLE_OK) then
    if decide (response_code env = 200%Z) then
      let name := url_to_filename url in
      let st := with_files (write_file name (response_data env) env (files st)) st in
      let st := emit (Wrote name (response_data env) (ofstream_ok env)) st in
      match LRUCache.put url cache_path (lru_cache st) with
      | Some lru =>
          let st := emit (Indexed url) (with_lru lru st) in
          let st := emit (Printed (CachedImage cache_path
                                     (String.length (response_data env)))) st in
          Some (Some cache_path, st)
      | None => None
      end
    else
      Some (None, emit (Printed (ErrorHTTP (response_code env))) st)
  else
    Some (None, emit (Printed (ErrorFetching (res env))) st).

(** [is_cached]. *)
Definition is_cached (url : string) (st : State) : bool :=
  file_exists (url_to_filename url) (files st).

(** [fetch]. *)
Definition fetch (url : string) (force_refresh : bool) (env : Env) (st : State)
  : option (option string * State) :=
  let cache_path := get_cache_path (cache_dir st) url in
  if negb force_refresh && file_exists (url_to_filename url) (files st) then
    let st := emit (Touched url) (with_lru (LRUCache.touch url (lru_cache st)) st) in
    let st := emit (Printed (UsingCachedImage cache_path)) st in
    Some (Some cache_path, st)
  else fetch_impl url env st.

(** [get]. *)
Definition get (url : string) (env : Env) (st : State)
  : option (option string * State) :=
  let cache_path := get_cache_path (cache_dir st) url in
  if file_exists (url_to_filename url) (files st) then
    let st := emit (Touched url) (with_lru (LRUCache.touch url (lru_cache st)) st) in
    Some (Some cache_path, st)
  else fetch url false env st.

(** [clear]: every regular file of the directory is removed, in the order
    the directory iterator yields them. *)
Definition clear (st : State) : State :=
  let st := foldl (fun st name => emit (Removed name)
                                    (with_files (delete name (files st)) st))
                  st (map_to_list (files st)).*1 in
  let st := with_lru (LRUCache.clear (lru_cache st)) st in
  emit (Printed (ClearedCacheDirectory (cache_dir st))) st.

(** [get_cache_size]. *)
Definition get_cache_size (st : State) : nat := LRUCache.size (lru_cache st).

(** A call of the public interface. *)
Inductive Call :=
| Get (url : string)
| Fetch (url : string) (force_refresh : bool)
| Clear.

(** The states the program is in between two calls when it was built with
    a positive [max_size]. *)
Definition inv (st : State) : Prop :=
  LRUCache.wf (lru_cache st)
  ∧ LRUCache.max_size (lru_cache st) = max_size st
  ∧ (1 ≤ max_size st)%nat
  ∧ (get_cache_size st ≤ max_size st)%nat.

Definition call (c : Call) (env : Env) (st : State) : option State :=
  match c with
  | Get url => snd <$> get url env st
  | Fetch url force_refresh => snd <$> fetch url force_refresh env st
  | Clear => Some (clear st)
  end.

(** A sequence of calls, each with what it meets outside. *)
Fixpoint run (cs : list (Call * Env)) (st : State) : option State :=
  match cs with
  | [] => Some st
  | (c, env) :: cs' =>
      match call c env st with
      | Some st' => run cs' st'
      | None => None
      end
  end.

End Plain.

(** ** image_cache_functools.cpp *)

Module Functools.

(** The [ImageCache] object (the [CURL*] handle apart), the cache directory
    and the trace. [url_to_iterator] is represented by its set of keys, as
    in [LRUCache.state]; [access_order] has its most recent url last. *)
Record State := {
  cache_dir : string;
  max_size : nat;
  access_order : list string;
  url_to_iterator : gset string;
  files : Directory;
  trace : list Event
}.

Definition with_index (l : list string) (m : gset string) (st : State) : State :=
  {| cache_dir := cache_dir st; max_size := max_size st; access_order := l;
     url_to_iterator := m; files := files st; trace := trace st |}.

Definition with_files (d : Directory) (st : State) : State :=
  {| cache_dir := cache_dir st; max_size := max_size st;
     access_order := access_order st; url_to_iterator := url_to_iterator st;
     files := d; trace := trace st |}.

Definition emit (e : Event) (st : State) : State :=
  {| cache_dir := cache_dir st; max_size := max_size st;
     access_order := access_order st; url_to_iterator := url_to_iterator st;
     files := files st; trace := trace st ++ [e] |}.

(** The constructor, on a cache directory that holds the files [d]. *)
Definition new (cache_dir : string) (max_size : nat) (d : Directory) : State :=
  {| cache_dir := cache_dir; max_size := max_size; access_order := [];
     url_to_iterator := ∅; files := d; trace := [] |}.

(** [operator<=] on [std::pair<std::time_t, fs::path>] for two files of
    the cache directory: by time, then by file name. *)
Definition entry_leb (x y : Z * string) : bool :=
  (x.1 <? y.1)%Z || ((x.1 =? y.1)%Z && String.leb x.2 y.2).

Definition entry_le (x y : Z * string) : Prop := entry_leb x y.

(** [evict_oldest_file]. *)
Definition evict_oldest_file (st : State) : State :=
  let listing := (fun e : string * File => (mtime e.2, e.1)) <$> map_to_list (files st) in
  if decide (max_size st < length listing)%nat then
    match merge_sort entry_le listing with
    | oldest :: _ =>
        let st := with_files (delete oldest.2 (files st)) st in
        let st := emit (Removed oldest.2) st in
        emit (Printed (EvictedLRUFile oldest.2)) st
    | [] => st
    end
  else st.

(** [access_order.erase(it)] for the iterator stored under [url]. *)
Fixpoint erase (url : string) (l : list string) : list string :=
  match l with
  | [] => []
  | u :: l' => if decide (u = url) then l' else u :: erase url l'
  end.

(** [touch_url]. *)
Definition touch_url (url : string) (st : State) : State :=
  let order :=
    if decide (url ∈ url_to_iterator st) then erase url (access_order st)
    else access_order st in
  with_index (order ++ [url]) ({[url]} ∪ url_to_iterator st) st.

(** [fetch_impl]. *)
Definition fetch_impl (url : string) (env : Env) (st : State)
  : option string * State :=
  let cache_path := get_cache_path (cache_dir st) url in
  let st := evict_oldest_file st in
  let st := emit (Fetched url) st in
  if decide (res env = CURLE_OK) then
    if decide (response_code env = 200%Z) then
      let name := url_to_filename url in
      let st := with_files (write_file name (response_data env) env (files st)) st in
      let st := emit (Wrote name (response_data env) (ofstream_ok env)) st in
      let st := emit (Indexed url) (touch_url url st) in
      let st := emit (Printed (CachedImage cache_path
                                 (String.length (response_data env)))) st in
      (Some cache_path, st)
    else
      (None, emit (Printed (ErrorHTTP (response_code env))) st)
  else
    (None, emit (Printed (ErrorFetching (res env))) st).

(** [get_impl]. *)
Definition get_impl (url : string) (env : Env) (st : State)
  : option string * State :=
  let cache_path := get_cache_path (cache_dir st) url in
  if file_exists (url_to_filename url) (files st) then
    let st := emit (Touched url) (touch_url url st) in
    let st := emit (Printed (UsingCachedImage cache_path)) st in
    (Some cache_path, st)
  else fetch_impl url env st.

(** [is_cached]. *)
Definition is_cached (url : string) (st : State) : bool :=
  file_exists (url_to_filename url) (files st).

(** [fetch]. *)
Definition fetch (url : string) (force_refresh : bool) (env : Env) (st : State)
  : option string * State :=
  if force_refresh then
    let st :=
      if decide (url ∈ url_to_iterator st) then
        emit (Unindexed url)
             (with_index (erase url (access_order st))
                         (url_to_iterator st ∖ {[url]}) st)
      else st in
    fetch_impl url env st
  else get_impl url env st.

(** [get]. *)
Definition get (url : string) (env : Env) (st : State)
  : option string * State :=
  get_impl url env st.

(** [clear]. *)
Definition clear (st : State) : State :=
  let st := foldl (fun st name => emit (Removed name)
                                    (with_files (delete name (files st)) st))
                  st (map_to_list (files st)).*1 in
  let st := with_index [] ∅ st in
  emit (Printed (ClearedCacheDirectory (cache_dir st))) st.

(** [get_cache_size]. *)
Definition get_cache_size (st : State) : nat := length (access_order st).

(** [get_hits] and [get_misses]. *)
Definition get_hits (st : State) : nat := 0.
Definition get_misses (st : State) : nat := 0.

Inductive Call :=
| Get (url : string)
| Fetch (url : string) (force_refresh : bool)
| Clear.

(** The list and the map describe the same urls, one node per url. *)
Definition wf (st : State) : Prop :=
  NoDup (access_order st) ∧ ∀ u, u ∈ url_to_iterator st ↔ u ∈ access_order st.

Definition call (c : Call) (env : Env) (st : State) : State :=
  match c with
  | Get url => (get url env st).2
  | Fetch url force_refresh => (fetch url force_refresh env st).2
  | Clear => clear st
  end.

Fixpoint run (cs : list (Call * Env)) (st : State) : State :=
  match cs with
  | [] => st
  | (c, env) :: cs' => run cs' (call c env st)
  end.

End Functools.

(** ** The write callback *)

(** [s.substr(0, n)]. *)
Fixpoint string_take (n : nat) (s : string) : string :=
  match n, s with
  | S n', String c rest => String c (string_take n' rest)
  | _, _ => EmptyString
  end.

(** [WriteCallback] (the same in both files): [size * nmemb] bytes of the
    buffer [contents] are appended to the string behind [userp], and their
    number is returned. The product is a [size_t], computed modulo [2^64];
    the buffer is taken to hold at least that many bytes. *)
Definition WriteCallback (contents : string) (size nmemb : Z) (userp : string)
  : Z * string :=
  let n := ((size * nmemb) mod 2 ^ 64)%Z in
  (n, userp +:+ string_take (Z.to_nat n) contents).

(** ** The key mapper as the specification words it *)

(** The text after the last [.] of the identifier's trailing path segment,
    when there is one. *)
Definition spec_extension_text (identifier : string) : option string :=
  let segment := path_filename identifier in
  match rfind "." segment with
  | Some pos => Some (substr_from (S pos) segment)
  | None => None
  end.

(** [keyFor]: the digest followed by the extension, the fixed default
    extension standing in for an absent or empty one. *)
Definition keyFor_spec (identifier : string) : string :=
  match spec_extension_text identifier with
  | Some (String c rest) => md5_hash identifier +:+ "." +:+ String c rest
  | Some EmptyString | None => md5_hash identifier +:+ ".jpg"
  end.

(** ** Scenarios *)

(** The urls of [main]. *)
Definition test_urls : list string :=
  [ "https://httpbin.org/image/jpeg";
    "https://httpbin.org/image/png";
    "https://httpbin.org/image/webp";
    "https://httpbin.org/image/svg" ].

(** A download that succeeds at time [t] and whose file is written. *)
Definition downloaded (t : Z) : Env :=
  {| res := CURLE_OK; response_code := 200; response_data := "image";
     ofstream_ok := true; now := t |}.

(** A download that succeeds at time [t] while the cache file cannot be
    opened for writing. *)
Definition unwritable (t : Z) : Env :=
  {| res := CURLE_OK; response_code := 200; response_data := "image";
     ofstream_ok := false; now := t |}.


(** [CURLE_OPERATION_TIMEDOUT]. *)
Definition timed_out (t : Z) : Env :=
  {| res := 28; response_code := 0; response_data := EmptyString;
     ofstream_ok := true; now := t |}.

(** [get] on each url in turn, every download succeeding, at times 1, 2, ... *)
Definition plain_gets (urls : list string) : list (Plain.Call * Env) :=
  imap (fun i url => (Plain.Get url, downloaded (Z.of_nat (S i)))) urls.

Definition functools_gets (urls : list string) : list (Functools.Call * Env) :=
  imap (fun i url => (Functools.Get url, downloaded (Z.of_nat (S i)))) urls.

(** Urls A, B, C, then A again, then D, and a further url E. *)
Definition url_A : string := "https://httpbin.org/image/jpeg".
Definition url_B : string := "https://httpbin.org/image/png".
Definition url_C : string := "https://httpbin.org/image/webp".
Definition url_D : string := "https://httpbin.org/image/svg".
Definition url_E : string := "https://httpbin.org/image".

Definition lru_order_urls : list string := [url_A; url_B; url_C; url_A; url_D].




(** * Properties *)

(** ** The digest against the test suite of RFC 1321 *)

Example md5_hash_empty : md5_hash EmptyString = "d41d8cd98f00b204e9800998ecf8427e".
Proof. vm_compute. reflexivity. Qed.

Example md5_hash_a : md5_hash "a" = "0cc175b9c0f1b6a831c399e269772661".
Proof. vm_compute. reflexivity. Qed.

Example md5_hash_abc : md5_hash "abc" = "900150983cd24fb0d6963f7d28e17f72".
Proof. vm_compute. reflexivity. Qed.

Example md5_hash_alphabet :
  md5_hash "abcdefghijklmnopqrstuvwxyz" = "c3fcd3d76192e4007dfb496cca67e13b".
Proof. vm_compute. reflexivity. Qed.

Example md5_hash_two_blocks :
  md5_hash "12345678901234567890123456789012345678901234567890123456789012345678901234567890"
  = "57edf4a22be3c955ac49da2e2107b67a".
Proof. vm_compute. reflexivity. Qed.

(** ** Paths and keys *)

Lemma rfind_Some c s i :
  rfind c s = Some i → substr_from i s = String c (substr_from (S i) s).
Proof.
  revert i. induction s as [|d s IH]; intros i; simpl; [done|].
  destruct (rfind c s) as [j|] eqn:Hj.
  - intros [= <-]. simpl. by apply IH.
  - destruct (Ascii.eqb d c) eqn:Hd; [|done].
    intros [= <-]. apply Ascii.eqb_eq in Hd as ->. by destruct s.
Qed.

Lemma rfind_period_single : ∀ pos, rfind "." "." ≠ Some (S pos).
Proof. intros pos. simpl. discriminate. Qed.

Local Open Scope Z_scope.

Lemma append_empty s : EmptyString +:+ s = s.
Proof. reflexivity. Qed.

Lemma append_String c s1 s2 : String c s1 +:+ s2 = String c (s1 +:+ s2).
Proof. reflexivity. Qed.

Lemma append_length s1 s2 :
  String.length (s1 +:+ s2) = (String.length s1 + String.length s2)%nat.
Proof.
  induction s1 as [|d s1 IH]; [by rewrite append_empty|].
  rewrite append_String. simpl. by rewrite IH.
Qed.

Lemma rfind_app c s1 s2 :
  rfind c (s1 +:+ s2)
  = match rfind c s2 with
    | Some i => Some (String.length s1 + i)%nat
    | None => rfind c s1
    end.
Proof.
  induction s1 as [|d s1 IH].
  - rewrite append_empty. simpl. by destruct (rfind c s2).
  - rewrite append_String. simpl. rewrite IH. by destruct (rfind c s2).
Qed.


Lemma rfind_substr_from c s n :
  rfind c s = None → rfind c (substr_from n s) = None.
Proof.
  revert n. induction s as [|d s IH]; intros n; simpl.
  - by destruct n.
  - destruct (rfind c s) eqn:Hs; [done|].
    destruct (Ascii.eqb d c) eqn:Hd; [done|]. intros _.
    destruct n as [|n]; simpl; [by rewrite Hs, Hd | by apply IH].
Qed.

Lemma rfind_last c s i :
  rfind c s = Some i → rfind c (substr_from (S i) s) = None.
Proof.
  revert i. induction s as [|d s IH]; intros i; simpl; [done|].
  destruct (rfind c s) as [j|] eqn:Hs.
  - intros [= <-]. by apply IH.
  - destruct (Ascii.eqb d c); [|done]. intros [= <-]. simpl. by destruct s.
Qed.

Lemma path_filename_no_separator p : rfind "/" (path_filename p) = None.
Proof.
  unfold path_filename. destruct (rfind "/" p) as [i|] eqn:Hp; [|done].
  by apply rfind_last.
Qed.

Lemma path_extension_no_separator p : rfind "/" (path_extension p) = None.
Proof.
  unfold path_extension. case_decide; [done|].
  destruct (rfind "." (path_filename p)) as [[|pos]|]; try done.
  apply rfind_substr_from, path_filename_no_separator.
Qed.

Lemma bytes_of_word_range n x :
  Forall (fun b => 0 ≤ b < 256) (MD5.bytes_of_word n x).
Proof.
  revert x. induction n as [|n IH]; intros x; simpl; constructor; [|by apply IH].
  change 255 with (Z.ones 8). rewrite Z.land_ones by lia.
  apply Z.mod_pos_bound. lia.
Qed.

Lemma digest_range msg i : 0 ≤ nth i (MD5.digest msg) 0 < 256.
Proof.
  assert (Forall (fun b => 0 ≤ b < 256) (MD5.digest msg)) as Hall.
  { unfold MD5.digest. repeat apply Forall_app_2; apply bytes_of_word_range. }
  destruct (nth_in_or_default i (MD5.digest msg) 0) as [Hin | ->]; [|lia].
  rewrite Forall_forall in Hall. by apply Hall, list_elem_of_In.
Qed.

Lemma hex_digit_no_separator d :
  0 ≤ d < 16 → Ascii.eqb (hex_digit d) "/" = false.
Proof.
  intros Hd.
  assert (d = 0 ∨ d = 1 ∨ d = 2 ∨ d = 3 ∨ d = 4 ∨ d = 5 ∨ d = 6 ∨ d = 7
          ∨ d = 8 ∨ d = 9 ∨ d = 10 ∨ d = 11 ∨ d = 12 ∨ d = 13 ∨ d = 14 ∨ d = 15)
    as Hcases by lia.
  repeat (destruct Hcases as [->|Hcases]; [reflexivity|]). by subst.
Qed.

Lemma hex_byte_no_separator b : 0 ≤ b < 256 → rfind "/" (hex_byte b) = None.
Proof.
  intros Hb. unfold hex_byte. simpl.
  rewrite !hex_digit_no_separator; [done| |].
  - split; [apply Z.div_pos; lia | apply Z.div_lt_upper_bound; lia].
  - apply Z.mod_pos_bound. lia.
Qed.

Lemma md5_hash_no_separator input : rfind "/" (md5_hash input) = None.
Proof.
  unfold md5_hash.
  generalize (seq 0 MD5_DIGEST_LENGTH).
  assert (rfind "/" EmptyString = None) as Hacc by done. revert Hacc.
  generalize EmptyString. intros acc Hacc l. revert acc Hacc.
  induction l as [|i l IH]; intros acc Hacc; simpl; [done|].
  apply IH. rewrite rfind_app, hex_byte_no_separator by apply digest_range. done.
Qed.

(** The digest is 32 characters long. *)
Lemma md5_hash_length input : String.length (md5_hash input) = 32%nat.
Proof.
  unfold md5_hash.
  assert (∀ l acc,
            String.length (fold_left (fun ss i =>
                ss +:+ hex_byte (nth i (MD5.digest (bytes_of_string input)) 0)) l acc)
            = (String.length acc + 2 * length l)%nat) as Hlen.
  { induction l as [|i l IH]; intros acc; simpl; [lia|].
    rewrite IH. rewrite append_length. simpl. lia. }
  by rewrite Hlen.
Qed.

Lemma url_to_filename_no_separator url : rfind "/" (url_to_filename url) = None.
Proof.
  unfold url_to_filename. rewrite rfind_app.
  case_decide; [by rewrite md5_hash_no_separator|].
  by rewrite path_extension_no_separator, md5_hash_no_separator.
Qed.





Local Close Scope Z_scope.

(** ** Lists *)

Lemma filter_ne_absent {A} `{EqDecision A} (x : A) (l : list A) :
  x ∉ l → filter (λ y, y ≠ x) l = l.
Proof.
  induction l as [|y l IH]; [done|].
  rewrite not_elem_of_cons. intros [Hy Hl].
  rewrite filter_cons_True by congruence. by rewrite IH.
Qed.

Lemma move_to_front_Permutation {A} `{EqDecision A} (x : A) (l : list A) :
  NoDup l → x ∈ l → x :: filter (λ y, y ≠ x) l ≡ₚ l.
Proof.
  induction l as [|y l IH]; [intros _ Hx; by apply elem_of_nil in Hx|].
  rewrite NoDup_cons, elem_of_cons. intros [Hy Hnd] Hx.
  destruct (decide (y = x)) as [->|Hne].
  - rewrite filter_cons_False by (intros Hne; by apply Hne).
    by rewrite filter_ne_absent.
  - rewrite filter_cons_True by done.
    destruct Hx as [->|Hx]; [done|].
    rewrite Permutation_swap. f_equiv. by apply IH.
Qed.

(** ** [LRUCache] *)

Section LRUCache_facts.
Context {Key : Type} `{Countable Key} {Value : Type}.
Implicit Types (l : list (Key * Value)) (c : LRUCache.state Key Value).

Lemma node_of_Some key l n :
  LRUCache.node_of key l = Some n → n.1 = key ∧ n ∈ l.
Proof.
  induction l as [|m l IH]; simpl; [done|].
  case_decide as Hm.
  - intros [= ->]. split; [done | left].
  - intros Hn. destruct (IH Hn) as [? ?]. split; [done | by right].
Qed.

Lemma node_of_None key l :
  LRUCache.node_of key l = None ↔ key ∉ l.*1.
Proof.
  induction l as [|m l IH]; simpl.
  - split; [intros _; apply not_elem_of_nil | done].
  - case_decide as Hm.
    + split; [done | intros Hn; exfalso; apply Hn; rewrite <- Hm; left].
    + rewrite IH, not_elem_of_cons.
      split; [intros ?; split; [congruence | done] | by intros [_ ?]].
Qed.

Lemma erase_node_absent key l :
  key ∉ l.*1 → LRUCache.erase_node key l = l.
Proof.
  induction l as [|m l IH]; simpl; [done|].
  rewrite not_elem_of_cons. intros [Hm Hl].
  case_decide; [congruence | by rewrite IH].
Qed.

Lemma erase_node_keys key l :
  NoDup l.*1 → (LRUCache.erase_node key l).*1 = filter (λ k, k ≠ key) l.*1.
Proof.
  induction l as [|m l IH]; simpl; [done|].
  rewrite NoDup_cons. intros [Hm Hl].
  case_decide as Hk.
  - rewrite filter_cons_False by (intros Hne; by apply Hne).
    rewrite filter_ne_absent; [done | by rewrite <- Hk].
  - rewrite filter_cons_True by done. rewrite fmap_cons. f_equal. by apply IH.
Qed.

Lemma erase_node_length key l :
  key ∈ l.*1 → S (length (LRUCache.erase_node key l)) = length l.
Proof.
  induction l as [|m l IH]; simpl.
  - intros Hin. by apply elem_of_nil in Hin.
  - rewrite elem_of_cons. intros Hin. case_decide as Hk; [done|].
    simpl. rewrite IH; [done | by destruct Hin].
Qed.

Lemma last_removelast l n :
  last l = Some n → l = removelast l ++ [n].
Proof.
  intros Hl. apply last_Some in Hl as [l' ->]. by rewrite removelast_last.
Qed.

Lemma touch_wf key c : LRUCache.wf c → LRUCache.wf (LRUCache.touch key c).
Proof.
  intros [Hnd Hdom]. unfold LRUCache.touch, LRUCache.splice_front.
  case_decide as Hk; [|done].
  destruct (LRUCache.node_of key (LRUCache.items c)) as [n|] eqn:Hn; [|done].
  apply node_of_Some in Hn as [Hn1 Hn2].
  unfold LRUCache.wf, LRUCache.keys in *. simpl.
  rewrite erase_node_keys by done. split.
  - apply NoDup_cons. split; [|by apply NoDup_filter].
    rewrite list_elem_of_filter. intros [Hne _]. by apply Hne.
  - intros k. rewrite Hdom, elem_of_cons, list_elem_of_filter.
    destruct (decide (k = key)) as [->|Hne]; [|rewrite Hn1; tauto].
    split; [by left | intros _; by apply Hdom].
Qed.

Lemma touch_size key c : LRUCache.size (LRUCache.touch key c) = LRUCache.size c.
Proof.
  unfold LRUCache.touch, LRUCache.splice_front, LRUCache.size.
  case_decide as Hk; [|done].
  destruct (LRUCache.node_of key (LRUCache.items c)) as [n|] eqn:Hn; [|done].
  simpl. apply erase_node_length.
  destruct (decide (key ∈ (LRUCache.items c).*1)) as [|Hout]; [done|].
  apply node_of_None in Hout. congruence.
Qed.

Lemma touch_max_size key c :
  LRUCache.max_size (LRUCache.touch key c) = LRUCache.max_size c.
Proof. unfold LRUCache.touch. by case_decide. Qed.

(** [put] is defined and keeps the list within its bound whenever the
    bound is at least one. *)
Lemma put_bounded key value c :
  LRUCache.wf c →
  (1 ≤ LRUCache.max_size c)%nat →
  (LRUCache.size c ≤ LRUCache.max_size c)%nat →
  ∃ c', LRUCache.put key value c = Some c'
        ∧ LRUCache.wf c'
        ∧ LRUCache.max_size c' = LRUCache.max_size c
        ∧ (LRUCache.size c' ≤ LRUCache.max_size c)%nat
        ∧ head (LRUCache.keys c') = Some key.
Proof.
  intros [Hnd Hdom] Hpos Hsize.
  unfold LRUCache.put, LRUCache.size, LRUCache.wf, LRUCache.keys in *.
  case_decide as Hk.
  - eexists. split; [done|]. simpl. rewrite erase_node_keys by done.
    assert (key ∈ (LRUCache.items c).*1) as Hin by by apply Hdom.
    pose proof (erase_node_length key _ Hin) as Hlen.
    repeat split; try done; try lia.
    + apply NoDup_cons. split; [|by apply NoDup_filter].
      rewrite list_elem_of_filter. intros [Hne _]. by apply Hne.
    + rewrite elem_of_cons, list_elem_of_filter.
      rewrite elem_of_union, elem_of_singleton, elem_of_difference, elem_of_singleton, Hdom.
      destruct (decide (k = key)); tauto.
    + rewrite elem_of_cons, list_elem_of_filter.
      rewrite elem_of_union, elem_of_singleton, elem_of_difference, elem_of_singleton, Hdom.
      destruct (decide (k = key)); tauto.
  - assert (key ∉ (LRUCache.items c).*1) as Hout by (by rewrite <- Hdom).
    case_decide as Hfull.
    + destruct (last (LRUCache.items c)) as [n|] eqn:Hlast.
      2:{ apply last_None in Hlast. rewrite Hlast in Hfull. simpl in Hfull. lia. }
      eexists. split; [done|]. simpl.
      pose proof (last_removelast _ _ Hlast) as Hsplit.
      set (l' := removelast (LRUCache.items c)) in *.
      rewrite Hsplit in Hnd, Hout, Hsize, Hdom.
      rewrite fmap_app in Hnd, Hout, Hdom. simpl in Hnd, Hout, Hdom.
      rewrite length_app in Hsize. simpl in Hsize.
      apply NoDup_app in Hnd as (Hnd' & Hdisj & _).
      rewrite not_elem_of_app in Hout. destruct Hout as [Hout _].
      repeat split; try done; try lia.
      * apply NoDup_cons. by split.
      * rewrite elem_of_cons, elem_of_union, elem_of_singleton,
          elem_of_difference, elem_of_singleton, Hdom, elem_of_app, list_elem_of_singleton.
        intros [->|[[Hk'|Hk'] Hne]]; [by left | by right | done].
      * rewrite elem_of_cons, elem_of_union, elem_of_singleton,
          elem_of_difference, elem_of_singleton, Hdom, elem_of_app, list_elem_of_singleton.
        intros [->|Hk']; [by left | right]. split; [by left|].
        intros ->. apply (Hdisj _ Hk'). left.
    + eexists. split; [done|]. simpl.
      repeat split; try done; try lia.
      * apply NoDup_cons. by split.
      * rewrite elem_of_cons, elem_of_union, elem_of_singleton, Hdom. tauto.
      * rewrite elem_of_cons, elem_of_union, elem_of_singleton, Hdom. tauto.
Qed.

End LRUCache_facts.

Lemma wf_empty {Key} `{Countable Key} {Value} (n : nat) :
  LRUCache.wf (LRUCache.State n ([] : list (Key * Value)) ∅).
Proof.
  split; simpl; [apply NoDup_nil_2|].
  intros k. split; intros Hk; [by apply not_elem_of_empty in Hk | by apply elem_of_nil in Hk].
Qed.

Section Touch.
Context {Key : Type} `{Countable Key} {Value : Type}.
Implicit Types (c : LRUCache.state Key Value).

Lemma touch_keys key c :
  LRUCache.wf c → key ∈ LRUCache.cache c →
  LRUCache.keys (LRUCache.touch key c)
  = key :: filter (λ k, k ≠ key) (LRUCache.keys c).
Proof.
  intros [Hnd Hdom] Hin. unfold LRUCache.touch, LRUCache.splice_front, LRUCache.keys in *.
  rewrite decide_True by done.
  destruct (LRUCache.node_of key (LRUCache.items c)) as [n|] eqn:Hn.
  - apply node_of_Some in Hn as [Hn1 _]. simpl.
    rewrite erase_node_keys by done. by rewrite Hn1.
  - apply node_of_None in Hn. apply Hdom in Hin. done.
Qed.

Lemma touch_absent key c : key ∉ LRUCache.cache c → LRUCache.touch key c = c.
Proof. intros Hout. unfold LRUCache.touch. by rewrite decide_False. Qed.

Lemma touch_cache key c :
  LRUCache.cache (LRUCache.touch key c) = LRUCache.cache c.
Proof. unfold LRUCache.touch. by case_decide. Qed.

Lemma touch_idempotent key c :
  LRUCache.touch key (LRUCache.touch key c) = LRUCache.touch key c.
Proof.
  unfold LRUCache.touch.
  destruct (decide (key ∈ LRUCache.cache c)) as [Hin|Hout]; simpl;
    [|by rewrite decide_False].
  rewrite decide_True by done. f_equal.
  unfold LRUCache.splice_front at 2.
  destruct (LRUCache.node_of key (LRUCache.items c)) as [n|] eqn:Hn.
  - destruct (node_of_Some _ _ _ Hn) as [Hn1 _].
    unfold LRUCache.splice_front. rewrite Hn. simpl.
    destruct (decide (n.1 = key)); [done | congruence].
  - unfold LRUCache.splice_front. by rewrite Hn.
Qed.

End Touch.

Lemma put_Some {Key} `{Countable Key} {Value} (key : Key) (value : Value) c c' :
  LRUCache.put key value c = Some c' →
  head (LRUCache.keys c') = Some key ∧ key ∈ LRUCache.cache c'.
Proof.
  unfold LRUCache.put, LRUCache.keys.
  case_decide; [|case_decide; [destruct (last (LRUCache.items c)); [|done]|]];
    intros [= <-]; simpl; (split; [done | apply elem_of_union_l, elem_of_singleton_2; done]).
Qed.

Lemma put_defined {Key} `{Countable Key} {Value} (key : Key) (value : Value) c :
  (1 ≤ LRUCache.max_size c)%nat → is_Some (LRUCache.put key value c).
Proof.
  intros Hpos. unfold LRUCache.put.
  case_decide; [by eexists|]. case_decide as Hfull; [|by eexists].
  destruct (last (LRUCache.items c)) eqn:Hlast; [by eexists|].
  apply last_None in Hlast. rewrite Hlast in Hfull. simpl in Hfull. lia.
Qed.

(** [put] on a full index drops the key at the back of the list. *)
Lemma put_full_keys {Key} `{Countable Key} {Value}
    (key : Key) (value : Value) (c : LRUCache.state Key Value) :
  LRUCache.wf c → key ∉ LRUCache.cache c →
  (1 ≤ LRUCache.max_size c)%nat →
  LRUCache.size c = LRUCache.max_size c →
  ∃ c' lru, LRUCache.put key value c = Some c'
            ∧ last (LRUCache.keys c) = Some lru
            ∧ LRUCache.keys c' = key :: removelast (LRUCache.keys c)
            ∧ lru ∉ LRUCache.cache c'.
Proof.
  intros [Hnd Hdom] Hout Hpos Hfull.
  unfold LRUCache.put, LRUCache.size, LRUCache.keys in *.
  rewrite decide_False by done. rewrite decide_True by lia.
  destruct (last (LRUCache.items c)) as [n|] eqn:Hlast.
  2:{ apply last_None in Hlast. rewrite Hlast in Hfull. simpl in Hfull. lia. }
  pose proof (last_removelast _ _ Hlast) as Hsplit.
  set (l' := removelast (LRUCache.items c)) in *.
  eexists _, n.1. split; [done|]. simpl.
  rewrite Hsplit in Hnd, Hdom |- *. rewrite fmap_app in Hnd, Hdom |- *. simpl in *.
  rewrite last_snoc, removelast_last. split; [done|]. split; [done|].
  apply NoDup_app in Hnd as (_ & Hdisj & _).
  rewrite elem_of_union, elem_of_singleton, elem_of_difference, elem_of_singleton.
  intros [Heq|[_ Hne]]; [|done].
  apply Hout, Hdom, elem_of_app. right. rewrite <- Heq. left.
Qed.

Lemma put_wf {Key} `{Countable Key} {Value}
    (key : Key) (value : Value) (c c' : LRUCache.state Key Value) :
  LRUCache.wf c → LRUCache.put key value c = Some c' → LRUCache.wf c'.
Proof.
  intros [Hnd Hdom]. unfold LRUCache.put, LRUCache.wf, LRUCache.keys in *.
  case_decide as Hk.
  - intros [= <-]. simpl. rewrite erase_node_keys by done. split.
    + apply NoDup_cons. split; [|by apply NoDup_filter].
      rewrite list_elem_of_filter. intros [Hne _]. by apply Hne.
    + intros k. rewrite elem_of_cons, list_elem_of_filter.
      rewrite elem_of_union, elem_of_singleton, elem_of_difference,
        elem_of_singleton, Hdom.
      destruct (decide (k = key)); tauto.
  - assert (key ∉ (LRUCache.items c).*1) as Hout by (by rewrite <- Hdom).
    case_decide as Hfull.
    + destruct (last (LRUCache.items c)) as [n|] eqn:Hlast; [|done].
      intros [= <-]. simpl.
      pose proof (last_removelast _ _ Hlast) as Hsplit.
      set (l' := removelast (LRUCache.items c)) in *.
      rewrite Hsplit in Hnd, Hout, Hdom.
      rewrite fmap_app in Hnd, Hout, Hdom. simpl in Hnd, Hout, Hdom.
      apply NoDup_app in Hnd as (Hnd' & Hdisj & _).
      rewrite not_elem_of_app in Hout. destruct Hout as [Hout _].
      split; [apply NoDup_cons; by split|].
      intros k. rewrite elem_of_cons, elem_of_union, elem_of_singleton,
        elem_of_difference, elem_of_singleton, Hdom, elem_of_app, list_elem_of_singleton.
      split.
      * intros [->|[[Hk'|Hk'] Hne]]; [by left | by right | done].
      * intros [->|Hk']; [by left | right]. split; [by left|].
        intros ->. apply (Hdisj _ Hk'). left.
    + intros [= <-]. simpl. split; [apply NoDup_cons; by split|].
      intros k. rewrite elem_of_cons, elem_of_union, elem_of_singleton, Hdom. tauto.
Qed.

Lemma put_fresh_room {Key} `{Countable Key} {Value}
    (key : Key) (value : Value) (c : LRUCache.state Key Value) :
  key ∉ LRUCache.cache c →
  (length (LRUCache.items c) < LRUCache.max_size c)%nat →
  LRUCache.put key value c
  = Some (LRUCache.State (LRUCache.max_size c) ((key, value) :: LRUCache.items c)
                         ({[key]} ∪ LRUCache.cache c)).
Proof.
  intros Hout Hroom. unfold LRUCache.put.
  rewrite decide_False by done. by rewrite decide_False by lia.
Qed.

Lemma put_fresh_full {Key} `{Countable Key} {Value}
    (key : Key) (value : Value) (c : LRUCache.state Key Value) n :
  key ∉ LRUCache.cache c →
  (LRUCache.max_size c ≤ length (LRUCache.items c))%nat →
  last (LRUCache.items c) = Some n →
  LRUCache.put key value c
  = Some (LRUCache.State (LRUCache.max_size c)
                         ((key, value) :: removelast (LRUCache.items c))
                         ({[key]} ∪ LRUCache.cache c ∖ {[n.1]})).
Proof.
  intros Hout Hfull Hlast. unfold LRUCache.put.
  rewrite decide_False by done. rewrite decide_True by done. by rewrite Hlast.
Qed.

(** The index alone follows the LRU order: with room for three entries,
    after A, B and C are put, A is touched and D is put, the index holds D,
    A and C, most recent first: B was dropped. *)
Lemma lru_order_in_index (A B C D pa pb pc pd : string) :
  A ≠ B → A ≠ C → A ≠ D → B ≠ C → B ≠ D → C ≠ D →
  (c1 ← LRUCache.put A pa (LRUCache.new 3);
   c2 ← LRUCache.put B pb c1;
   c3 ← LRUCache.put C pc c2;
   c4 ← LRUCache.put D pd (LRUCache.touch A c3);
   Some (LRUCache.keys c4, bool_decide (B ∈ LRUCache.cache c4)))
  = Some ([D; A; C], false).
Proof.
  intros HAB HAC HAD HBC HBD HCD.
  rewrite put_fresh_room; [simpl | apply not_elem_of_empty | simpl; lia].
  rewrite put_fresh_room; [simpl | | simpl; lia].
  2:{ simpl. rewrite elem_of_union, elem_of_singleton.
      intros [?|Hin]; [done | by apply not_elem_of_empty in Hin]. }
  rewrite put_fresh_room; [simpl | | simpl; lia].
  2:{ simpl. rewrite !elem_of_union, !elem_of_singleton.
      intros [?|[?|Hin]]; [done | done | by apply not_elem_of_empty in Hin]. }
  unfold LRUCache.touch. simpl.
  rewrite decide_True.
  2:{ rewrite !elem_of_union, !elem_of_singleton. tauto. }
  unfold LRUCache.splice_front. simpl.
  rewrite (decide_False (P := C = A)) by done.
  rewrite (decide_False (P := B = A)) by done.
  rewrite (decide_True (P := A = A)) by done. simpl.
  rewrite (decide_False (P := C = A)) by done.
  rewrite (decide_False (P := B = A)) by done.
  rewrite (decide_True (P := A = A)) by done.
  rewrite (put_fresh_full D pd _ (B, pb)); [simpl | | simpl; lia | done].
  2:{ simpl. rewrite !elem_of_union, !elem_of_singleton.
      intros [?|[?|[?|Hin]]]; [done | done | done | by apply not_elem_of_empty in Hin]. }
  do 2 f_equal. apply bool_decide_eq_false.
  rewrite elem_of_union, elem_of_singleton, elem_of_difference, elem_of_singleton.
  intros [?|[_ ?]]; done.
Qed.

(** ** The index-driven variant *)

Module PlainFacts.
Import Plain.

Lemma new_inv dir cap d : (1 ≤ cap)%nat → inv (new dir cap d).
Proof.
  intros Hcap. split; [apply wf_empty|].
  unfold get_cache_size, LRUCache.size. simpl. lia.
Qed.

Lemma touched_inv url st :
  inv st → inv (with_lru (LRUCache.touch url (lru_cache st)) st).
Proof.
  intros (Hwf & Hmax & Hpos & Hsize). unfold inv, get_cache_size. simpl.
  rewrite touch_size, touch_max_size. split; [by apply touch_wf | done].
Qed.

Lemma emit_inv e st : inv st → inv (emit e st).
Proof. done. Qed.

Lemma with_files_inv d st : inv st → inv (with_files d st).
Proof. done. Qed.

Lemma evict_lru_id st : evict_lru st = st.
Proof. unfold evict_lru. by case_decide. Qed.

Lemma fetch_impl_inv url env st :
  inv st →
  ∃ r st', fetch_impl url env st = Some (r, st') ∧ inv st'
           ∧ max_size st' = max_size st.
Proof.
  intros Hinv. unfold fetch_impl. rewrite evict_lru_id.
  case_decide; [case_decide|];
    try (eexists _, _; split; [done|]; split; [by apply emit_inv | done]).
  destruct Hinv as (Hwf & Hmax & Hpos & Hsize). simpl.
  destruct (put_bounded url (get_cache_path (cache_dir st) url) (lru_cache st))
    as (c' & -> & Hwf' & Hmax' & Hsize' & _);
    [done | lia | unfold get_cache_size in Hsize; lia |].
  eexists _, _. split; [done|]. split; [|done].
  unfold inv, get_cache_size. simpl. rewrite Hmax'.
  split; [done|]. split; [done|]. split; [done | lia].
Qed.

Lemma fetch_inv url force env st :
  inv st →
  ∃ r st', fetch url force env st = Some (r, st') ∧ inv st'
           ∧ max_size st' = max_size st.
Proof.
  intros Hinv. unfold fetch.
  destruct (negb force && file_exists _ _); [|by apply fetch_impl_inv].
  eexists _, _. split; [done|]. split; [|done].
  do 2 apply emit_inv. by apply touched_inv.
Qed.

Lemma get_inv url env st :
  inv st →
  ∃ r st', get url env st = Some (r, st') ∧ inv st'
           ∧ max_size st' = max_size st.
Proof.
  intros Hinv. unfold get.
  destruct (file_exists _ _); [|by apply fetch_inv].
  eexists _, _. split; [done|]. split; [|done].
  apply emit_inv. by apply touched_inv.
Qed.

Lemma remove_all_frame names st :
  let st' := foldl (fun st name => emit (Removed name)
                      (with_files (delete name (files st)) st)) st names in
  lru_cache st' = lru_cache st ∧ max_size st' = max_size st
  ∧ cache_dir st' = cache_dir st.
Proof.
  revert st. induction names as [|n names IH]; intros st; simpl; [done|].
  destruct (IH (emit (Removed n) (with_files (delete n (files st)) st)))
    as (-> & -> & ->). done.
Qed.

Lemma clear_inv st : inv st → inv (clear st) ∧ max_size (clear st) = max_size st.
Proof.
  intros (Hwf & Hmax & Hpos & Hsize). unfold clear, inv, get_cache_size. simpl.
  destruct (remove_all_frame (map_to_list (files st)).*1 st) as (Hl & Hm & _).
  simpl in Hl, Hm. rewrite Hl, Hm. split; [|done]. split; [apply wf_empty|].
  unfold LRUCache.size. simpl. lia.
Qed.

Lemma call_inv c env st :
  inv st → ∃ st', call c env st = Some st' ∧ inv st' ∧ max_size st' = max_size st.
Proof.
  intros Hinv. destruct c as [url|url force|]; simpl.
  - destruct (get_inv url env st Hinv) as (r & st' & -> & ?). by eexists.
  - destruct (fetch_inv url force env st Hinv) as (r & st' & -> & ?). by eexists.
  - eexists. split; [done | by apply clear_inv].
Qed.

(** Every sequence of calls is defined and ends in a state of [inv]. *)
Lemma run_inv cs st :
  inv st → ∃ st', run cs st = Some st' ∧ inv st' ∧ max_size st' = max_size st.
Proof.
  revert st. induction cs as [|[c env] cs IH]; intros st Hinv; simpl.
  - by eexists.
  - destruct (call_inv c env st Hinv) as (st' & -> & Hinv' & <-). by apply IH.
Qed.

End PlainFacts.

Lemma file_exists_write name data env (d : Directory) :
  ofstream_ok env = true → file_exists name (write_file name data env d) = true.
Proof.
  intros Hok. unfold file_exists, write_file. rewrite Hok.
  apply bool_decide_eq_true. rewrite lookup_insert_eq. by eexists.
Qed.

Lemma plain_get_hit url env st :
  Plain.is_cached url st = true →
  Plain.get url env st
  = Some (Some (get_cache_path (Plain.cache_dir st) url),
          Plain.emit (Touched url)
            (Plain.with_lru (LRUCache.touch url (Plain.lru_cache st)) st)).
Proof. unfold Plain.is_cached, Plain.get. by intros ->. Qed.

Lemma plain_fetch_hit url env st :
  Plain.is_cached url st = true →
  Plain.fetch url false env st
  = Some (Some (get_cache_path (Plain.cache_dir st) url),
          Plain.emit (Printed (UsingCachedImage (get_cache_path (Plain.cache_dir st) url)))
            (Plain.emit (Touched url)
               (Plain.with_lru (LRUCache.touch url (Plain.lru_cache st)) st))).
Proof. unfold Plain.is_cached, Plain.fetch. by intros ->. Qed.

Lemma plain_get_miss url env st :
  Plain.is_cached url st = false →
  Plain.get url env st = Plain.fetch_impl url env st.
Proof. unfold Plain.is_cached, Plain.get, Plain.fetch. by intros ->. Qed.

(** A [get] that returns a path after a hit, or after a download whose file
    was written, leaves the url cached. *)
Lemma plain_get_cached url env st path st1 :
  Plain.get url env st = Some (Some path, st1) →
  Plain.is_cached url st = true ∨ ofstream_ok env = true →
  Plain.is_cached url st1 = true
  ∧ path = get_cache_path (Plain.cache_dir st1) url.
Proof.
  destruct (Plain.is_cached url st) eqn:Hc.
  - rewrite plain_get_hit by done. intros [= <- <-] _. done.
  - rewrite plain_get_miss by done. intros Hget [?|Hok]; [done|].
    unfold Plain.fetch_impl in Hget. rewrite PlainFacts.evict_lru_id in Hget.
    repeat case_decide; try done. simpl in Hget.
    destruct (LRUCache.put _ _ _); [|done].
    injection Hget as <- <-. split; [|done].
    unfold Plain.is_cached. simpl. by apply file_exists_write.
Qed.


(** Apart from [clear], the index-driven variant never removes a file. *)
Lemma plain_fetch_impl_keeps_files url env st r st' name :
  Plain.fetch_impl url env st = Some (r, st') →
  is_Some (Plain.files st !! name) → is_Some (Plain.files st' !! name).
Proof.
  unfold Plain.fetch_impl. rewrite PlainFacts.evict_lru_id.
  repeat case_decide; simpl; try (intros [= <- <-]; done).
  destruct (LRUCache.put _ _ _); [|done]. intros [= <- <-]. simpl.
  unfold write_file. destruct (ofstream_ok env); [|done].
  intros Hin. rewrite lookup_insert. by case_decide.
Qed.

Lemma plain_get_keeps_files url env st r st' name :
  Plain.get url env st = Some (r, st') →
  is_Some (Plain.files st !! name) → is_Some (Plain.files st' !! name).
Proof.
  unfold Plain.get, Plain.fetch.
  destruct (file_exists _ _); simpl; [by intros [= <- <-]|].
  apply plain_fetch_impl_keeps_files.
Qed.

Lemma plain_fetch_keeps_files url force env st r st' name :
  Plain.fetch url force env st = Some (r, st') →
  is_Some (Plain.files st !! name) → is_Some (Plain.files st' !! name).
Proof.
  unfold Plain.fetch.
  destruct (negb force && file_exists _ _); simpl; [by intros [= <- <-]|].
  apply plain_fetch_impl_keeps_files.
Qed.

(** X18. Once cached, a url stays cached through any sequence of [get] and
    [fetch] calls of the index-driven variant: short of [clear], no file
    is ever removed, whatever [max_size] is. *)
Lemma plain_cached_forever url cs st st' :
  Forall (fun c => c.1 ≠ Plain.Clear) cs →
  Plain.run cs st = Some st' →
  Plain.is_cached url st = true → Plain.is_cached url st' = true.
Proof.
  revert st. induction cs as [|[c env] cs IH]; intros st Hcs; simpl.
  - by intros [= <-].
  - apply Forall_cons in Hcs as [Hc Hcs]. simpl in Hc.
    destruct (Plain.call c env st) as [st1|] eqn:Hcall; [|done].
    intros Hrun Hcached. apply (IH st1 Hcs Hrun).
    unfold Plain.is_cached, file_exists in *.
    apply bool_decide_eq_true. apply bool_decide_eq_true in Hcached.
    destruct c as [u|u force|]; simpl in Hcall; [| |done].
    + destruct (Plain.get u env st) as [[r st2]|] eqn:Hget; [|done].
      injection Hcall as <-. by eapply plain_get_keeps_files.
    + destruct (Plain.fetch u force env st) as [[r st2]|] eqn:Hget; [|done].
      injection Hcall as <-. by eapply plain_fetch_keeps_files.
Qed.

(** Whatever the capacity, every state the index-driven variant reaches
    has a well-formed index. *)
Lemma plain_call_wf c env st st' :
  LRUCache.wf (Plain.lru_cache st) → Plain.call c env st = Some st' →
  LRUCache.wf (Plain.lru_cache st').
Proof.
  intros Hwf.
  assert (∀ url r st1, Plain.fetch_impl url env st = Some (r, st1) →
            LRUCache.wf (Plain.lru_cache st1)) as Himpl.
  { intros url r st1. unfold Plain.fetch_impl. rewrite PlainFacts.evict_lru_id.
    repeat case_decide; simpl; try (by intros [= <- <-]).
    destruct (LRUCache.put _ _ _) as [c'|] eqn:Hput; [|done].
    intros [= <- <-]. simpl. by eapply put_wf. }
  destruct c as [url|url force|]; simpl.
  - unfold Plain.get, Plain.fetch.
    destruct (file_exists _ _); simpl.
    + intros [= <-]. simpl. by apply touch_wf.
    + destruct (Plain.fetch_impl url env st) as [[r st1]|] eqn:Hf; [|done].
      intros [= <-]. by eapply Himpl.
  - unfold Plain.fetch.
    destruct (negb force && file_exists _ _); simpl.
    + intros [= <-]. simpl. by apply touch_wf.
    + destruct (Plain.fetch_impl url env st) as [[r st1]|] eqn:Hf; [|done].
      intros [= <-]. by eapply Himpl.
  - intros [= <-]. unfold Plain.clear. simpl. apply wf_empty.
Qed.

Lemma plain_run_wf cs cache_dir max_size d st :
  Plain.run cs (Plain.new cache_dir max_size d) = Some st →
  LRUCache.wf (Plain.lru_cache st).
Proof.
  assert (∀ st0, LRUCache.wf (Plain.lru_cache st0) →
            Plain.run cs st0 = Some st → LRUCache.wf (Plain.lru_cache st)) as Hgen.
  { induction cs as [|[c env] cs IH]; intros st0 Hwf; simpl.
    - by intros [= <-].
    - destruct (Plain.call c env st0) as [st1|] eqn:Hcall; [|done].
      apply IH. by eapply plain_call_wf. }
  apply Hgen, wf_empty.
Qed.

(** X17. In the index-driven variant built with a capacity of at least one,
    every sequence of calls ([get], [fetch] with or without a forced
    refresh, [clear]; whatever the transfers return) is defined, and after
    each call the recency index holds at most [max_size] entries. *)
Theorem capacity_invariant
    (cache_dir : string) (max_size : nat) (d : Directory)
    (cs : list (Plain.Call * Env)) (n : nat) :
  (1 ≤ max_size)%nat →
  ∃ st, Plain.run (take n cs) (Plain.new cache_dir max_size d) = Some st
        ∧ (Plain.get_cache_size st ≤ max_size)%nat.
Proof.
  intros Hcap.
  destruct (PlainFacts.run_inv (take n cs) (Plain.new cache_dir max_size d))
    as (st & Hrun & Hinv & Hmax); [by apply PlainFacts.new_inv|].
  exists st. split; [done|]. simpl in Hmax. rewrite <- Hmax. apply Hinv.
Qed.

Lemma capacity_invariant_witness :
  ∃ st, Plain.run (plain_gets test_urls) (Plain.new ".image_cache" 3 ∅) = Some st
        ∧ (Plain.get_cache_size st ≤ 3)%nat.
Proof.
  apply (capacity_invariant ".image_cache" 3 ∅ (plain_gets test_urls) 4). lia.
Defined.

(** With [max_size = 0] the first [put] calls [items.back()] on an empty
    list. *)
Lemma put_undefined_without_capacity :
  LRUCache.put "k" "v" (LRUCache.new 0) = None
  ∧ Plain.run (plain_gets test_urls) (Plain.new ".image_cache" 0 ∅) = None.
Proof. split; vm_compute; reflexivity. Qed.

(** ** The scan-driven variant *)

Module FunctoolsFacts.
Import Functools.

Lemma erase_absent url (l : list string) : url ∉ l → erase url l = l.
Proof.
  induction l as [|u l IH]; simpl; [done|].
  rewrite not_elem_of_cons. intros [Hu Hl].
  case_decide; [congruence | by rewrite IH].
Qed.

Lemma erase_filter url (l : list string) :
  NoDup l → erase url l = filter (λ u, u ≠ url) l.
Proof.
  induction l as [|u l IH]; simpl; [done|].
  rewrite NoDup_cons. intros [Hu Hl].
  case_decide as Hk.
  - rewrite filter_cons_False by (intros Hne; by apply Hne).
    rewrite filter_ne_absent; [done | by rewrite <- Hk].
  - rewrite filter_cons_True by done. f_equal. by apply IH.
Qed.

Lemma erase_snoc url (l : list string) : url ∉ l → erase url (l ++ [url]) = l.
Proof.
  induction l as [|u l IH]; simpl.
  - intros _. by case_decide.
  - rewrite not_elem_of_cons. intros [Hu Hl].
    case_decide; [congruence | by rewrite IH].
Qed.

Lemma new_wf dir cap d : wf (new dir cap d).
Proof.
  split; simpl; [apply NoDup_nil_2|].
  intros u. split; intros Hu; [by apply not_elem_of_empty in Hu | by apply elem_of_nil in Hu].
Qed.

(** Where [touch_url] leaves the list. *)
Lemma touch_url_order url st :
  wf st →
  access_order (touch_url url st) = filter (λ u, u ≠ url) (access_order st) ++ [url].
Proof.
  intros [Hnd Hdom]. unfold touch_url. simpl. f_equal.
  case_decide as Hin; [by apply erase_filter|].
  symmetry. apply filter_ne_absent. by rewrite <- Hdom.
Qed.

Lemma touch_url_wf url st : wf st → wf (touch_url url st).
Proof.
  intros Hwf. pose proof (touch_url_order url st Hwf) as Hord.
  destruct Hwf as [Hnd Hdom]. split.
  - rewrite Hord. apply NoDup_app. split; [by apply NoDup_filter|]. split.
    + intros u. rewrite list_elem_of_filter, list_elem_of_singleton. by intros [? _].
    + apply NoDup_singleton.
  - intros u. rewrite Hord. unfold touch_url. simpl.
    rewrite elem_of_union, elem_of_singleton, elem_of_app,
      list_elem_of_filter, list_elem_of_singleton, Hdom.
    destruct (decide (u = url)); tauto.
Qed.

Lemma touch_url_idempotent url st :
  wf st → touch_url url (touch_url url st) = touch_url url st.
Proof.
  intros Hwf. pose proof (touch_url_order url st Hwf) as Hord.
  unfold touch_url at 1. rewrite Hord.
  rewrite decide_True
    by (unfold touch_url; simpl; apply elem_of_union_l, elem_of_singleton_2; done).
  rewrite erase_snoc.
  2:{ rewrite list_elem_of_filter. by intros [? _]. }
  unfold touch_url, with_index. simpl. rewrite <- Hord. unfold touch_url. simpl.
  f_equal. apply set_eq. intros u. rewrite !elem_of_union. tauto.
Qed.

End FunctoolsFacts.


(** [evict_oldest_file] touches the directory and the trace only. *)
Lemma evict_oldest_file_frame st :
  Functools.cache_dir (Functools.evict_oldest_file st) = Functools.cache_dir st
  ∧ Functools.max_size (Functools.evict_oldest_file st) = Functools.max_size st
  ∧ Functools.access_order (Functools.evict_oldest_file st) = Functools.access_order st
  ∧ Functools.url_to_iterator (Functools.evict_oldest_file st)
    = Functools.url_to_iterator st.
Proof.
  unfold Functools.evict_oldest_file. case_decide; [|done].
  by destruct (merge_sort _ _).
Qed.

Lemma evict_oldest_file_within st :
  (size (Functools.files st) ≤ Functools.max_size st)%nat →
  Functools.evict_oldest_file st = st.
Proof.
  intros Hsize. unfold Functools.evict_oldest_file.
  rewrite length_fmap, length_map_to_list. by rewrite decide_False by lia.
Qed.


Lemma functools_get_hit url env st :
  Functools.is_cached url st = true →
  Functools.get url env st
  = (Some (get_cache_path (Functools.cache_dir st) url),
     Functools.emit (Printed (UsingCachedImage (get_cache_path (Functools.cache_dir st) url)))
       (Functools.emit (Touched url) (Functools.touch_url url st))).
Proof. unfold Functools.is_cached, Functools.get, Functools.get_impl. by intros ->. Qed.

Lemma functools_get_miss url env st :
  Functools.is_cached url st = false →
  Functools.get url env st = Functools.fetch_impl url env st.
Proof. unfold Functools.is_cached, Functools.get, Functools.get_impl. by intros ->. Qed.

Lemma functools_get_cached url env st path st1 :
  Functools.get url env st = (Some path, st1) →
  Functools.is_cached url st = true ∨ ofstream_ok env = true →
  Functools.is_cached url st1 = true
  ∧ path = get_cache_path (Functools.cache_dir st1) url.
Proof.
  destruct (Functools.is_cached url st) eqn:Hc.
  - rewrite functools_get_hit by done. intros [= <- <-] _. done.
  - rewrite functools_get_miss by done. intros Hget [?|Hok]; [done|].
    unfold Functools.fetch_impl in Hget.
    repeat case_decide; try done.
    injection Hget as <- <-. split.
    + unfold Functools.is_cached. simpl. by apply file_exists_write.
    + simpl. by destruct (evict_oldest_file_frame st) as (-> & _).
Qed.


(** The scan-driven variant keeps its list and its map in step. *)
Lemma functools_call_wf c env st :
  Functools.wf st → Functools.wf (Functools.call c env st).
Proof.
  assert (∀ st0 e, Functools.wf st0 → Functools.wf (Functools.emit e st0)) as Hemit
    by done.
  assert (∀ st0, Functools.wf st0 → Functools.wf (Functools.evict_oldest_file st0))
    as Hevict.
  { intros st0 Hwf. unfold Functools.wf.
    by destruct (evict_oldest_file_frame st0) as (_ & _ & -> & ->). }
  assert (∀ url st0, Functools.wf st0 →
            Functools.wf (Functools.fetch_impl url env st0).2) as Himpl.
  { intros url st0 Hwf. unfold Functools.fetch_impl.
    repeat case_decide; simpl; try by apply Hevict.
    apply FunctoolsFacts.touch_url_wf. exact (Hevict _ Hwf). }
  assert (∀ url st0, Functools.wf st0 →
            Functools.wf (Functools.get_impl url env st0).2) as Hget.
  { intros url st0 Hwf. unfold Functools.get_impl.
    destruct (file_exists _ _); [|by apply Himpl].
    simpl. by apply FunctoolsFacts.touch_url_wf. }
  intros Hwf. destruct c as [url|url [|]|]; simpl.
  - by apply Hget.
  - unfold Functools.fetch. apply Himpl. case_decide as Hin; [|done].
    destruct Hwf as [Hnd Hdom]. split; simpl.
    + rewrite FunctoolsFacts.erase_filter by done. by apply NoDup_filter.
    + intros u. rewrite FunctoolsFacts.erase_filter by done.
      rewrite elem_of_difference, elem_of_singleton, list_elem_of_filter, Hdom. tauto.
  - by apply Hget.
  - split; simpl; [apply NoDup_nil_2|].
    intros u. split; intros Hu; [by apply not_elem_of_empty in Hu | by apply elem_of_nil in Hu].
Qed.

Lemma functools_run_wf cs st :
  Functools.wf st → Functools.wf (Functools.run cs st).
Proof.
  revert st. induction cs as [|[c env] cs IH]; intros st Hwf; simpl; [done|].
  by apply IH, functools_call_wf.
Qed.

(** [touch_url] never shortens the list, and nothing else of [get] does. *)
Lemma functools_get_grows url env st :
  Functools.wf st →
  (Functools.get_cache_size st
   ≤ Functools.get_cache_size (Functools.get url env st).2)%nat.
Proof.
  intros Hwf. unfold Functools.get, Functools.get_impl, Functools.fetch_impl,
    Functools.get_cache_size.
  assert (∀ st', Functools.wf st' →
            (length (Functools.access_order st')
             ≤ length (Functools.access_order (Functools.touch_url url st')))%nat)
    as Htouch.
  { intros st' [Hnd Hdom]. unfold Functools.touch_url. simpl.
    rewrite length_app. simpl. case_decide as Hin; [|lia].
    apply Hdom in Hin.
    rewrite FunctoolsFacts.erase_filter by done.
    pose proof (move_to_front_Permutation url _ Hnd Hin) as Hperm.
    apply Permutation_length in Hperm. simpl in Hperm. lia. }
  assert (Functools.wf (Functools.evict_oldest_file st)) as Hwf'.
  { destruct Hwf as [Hnd Hdom]. unfold Functools.wf.
    by destruct (evict_oldest_file_frame st) as (_ & _ & -> & ->). }
  destruct (file_exists _ _); simpl; [by apply Htouch|].
  repeat case_decide; simpl;
    try (by destruct (evict_oldest_file_frame st) as (_ & _ & -> & _)).
  etrans; [|apply (Htouch _ Hwf')].
  by destruct (evict_oldest_file_frame st) as (_ & _ & -> & _).
Qed.

(** ** The order of [evict_oldest_file] *)

Lemma entry_le_spec (x y : Z * string) :
  Functools.entry_le x y
  ↔ (x.1 < y.1)%Z ∨ (x.1 = y.1 ∧ String.le x.2 y.2).
Proof.
  unfold Functools.entry_le, Functools.entry_leb, String.le.
  rewrite orb_True, andb_True.
  rewrite !Is_true_true, Z.ltb_lt, Z.eqb_eq. done.
Qed.

Local Instance entry_le_refl : Reflexive Functools.entry_le.
Proof. intros x. apply entry_le_spec. right. split; [done|]. reflexivity. Qed.

Local Instance entry_le_trans : Transitive Functools.entry_le.
Proof.
  intros x y z. rewrite !entry_le_spec.
  intros [Hxy|[Hxy Hs1]] [Hyz|[Hyz Hs2]]; try (left; lia).
  right. split; [lia|]. by etrans.
Qed.

Local Instance entry_le_total : Total Functools.entry_le.
Proof.
  intros x y. rewrite !entry_le_spec.
  destruct (Z.lt_trichotomy x.1 y.1) as [?|[Heq|?]]; [by left; left | | by right; left].
  destruct (total String.le x.2 y.2); [left | right]; right; by split.
Qed.


(** The first element of the sorted listing is a least one. *)
Lemma merge_sort_head (l : list (Z * string)) x rest :
  merge_sort Functools.entry_le l = x :: rest →
  x ∈ l ∧ ∀ y, y ∈ l → Functools.entry_le x y.
Proof.
  intros Hsort.
  pose proof (merge_sort_Permutation Functools.entry_le l) as Hperm.
  pose proof (StronglySorted_merge_sort Functools.entry_le l) as Hsorted.
  rewrite Hsort in Hperm, Hsorted. split.
  - rewrite <- Hperm. left.
  - intros y Hy. rewrite <- Hperm in Hy.
    apply elem_of_cons in Hy as [->|Hy]; [reflexivity|].
    apply StronglySorted_inv in Hsorted as [_ Hall].
    rewrite Forall_forall in Hall. by apply Hall.
Qed.

Lemma evict_oldest_file_over (st : Functools.State) :
  (Functools.max_size st < size (Functools.files st))%nat →
  ∃ name file,
    Functools.files st !! name = Some file
    ∧ Functools.files (Functools.evict_oldest_file st) = delete name (Functools.files st)
    ∧ size (Functools.files (Functools.evict_oldest_file st))
      = pred (size (Functools.files st))
    ∧ Functools.trace (Functools.evict_oldest_file st)
      = Functools.trace st ++ [Removed name; Printed (EvictedLRUFile name)]
    ∧ ∀ name' file', Functools.files st !! name' = Some file' →
        (mtime file ≤ mtime file')%Z
        ∧ Functools.entry_le (mtime file, name) (mtime file', name').
Proof.
  intros Hover. unfold Functools.evict_oldest_file.
  set (listing := (fun e : string * File => (mtime e.2, e.1)) <$> map_to_list (Functools.files st)).
  assert (length listing = size (Functools.files st)) as Hlen
    by (unfold listing; by rewrite length_fmap, length_map_to_list).
  rewrite decide_True by lia.
  destruct (merge_sort Functools.entry_le listing) as [|oldest rest] eqn:Hsort.
  { pose proof (merge_sort_Permutation Functools.entry_le listing) as Hperm.
    rewrite Hsort in Hperm. apply Permutation_length in Hperm. simpl in Hperm. lia. }
  destruct (merge_sort_head _ _ _ Hsort) as [Hin Hleast].
  apply list_elem_of_fmap in Hin as ([name file] & -> & Hin). simpl.
  apply elem_of_map_to_list in Hin.
  exists name, file. split; [done|]. split; [done|].
  split; [by apply map_size_delete_Some|].
  split; [by rewrite <- app_assoc|].
  intros name' file' Hin'.
  assert (Functools.entry_le (mtime file, name) (mtime file', name')) as Hle.
  { apply Hleast. apply list_elem_of_fmap. exists (name', file').
    split; [done | by apply elem_of_map_to_list]. }
  split; [|done]. apply entry_le_spec in Hle. simpl in Hle. lia.
Qed.

(** ** Well-formed indexes from their lists *)

Lemma wf_intro {Key} `{Countable Key} {Value} (c : LRUCache.state Key Value) :
  NoDup (LRUCache.keys c) → LRUCache.cache c = list_to_set (LRUCache.keys c) →
  LRUCache.wf c.
Proof.
  intros Hnd Heq. split; [done|]. intros k. rewrite Heq. apply elem_of_list_to_set.
Qed.

Lemma functools_wf_intro (st : Functools.State) :
  NoDup (Functools.access_order st) →
  Functools.url_to_iterator st = list_to_set (Functools.access_order st) →
  Functools.wf st.
Proof.
  intros Hnd Heq. split; [done|]. intros k. rewrite Heq. apply elem_of_list_to_set.
Qed.

(** ** The claims of the specification *)

(** C1, at the failing input: the scan-driven variant with [max_size = 3]
    and the four urls of [main], each downloaded in turn. [access_order] is
    never shortened, so after the fourth call the recency index holds four
    urls and [get_cache_size] exceeds the capacity. *)
Theorem access_order_exceeds_max_size :
  let st := Functools.run (functools_gets test_urls)
                          (Functools.new ".image_cache" 3 ∅) in
  Functools.max_size st = 3%nat
  ∧ Functools.access_order st = test_urls
  ∧ Functools.get_cache_size st = 4%nat
  ∧ (Functools.max_size st < Functools.get_cache_size st)%nat.
Proof.
  split; [vm_compute; reflexivity|]. split; [vm_compute; reflexivity|].
  split; [vm_compute; reflexivity|]. vm_compute. lia.
Qed.

(** C2, at the failing input: [max_size = 3] and the four urls of [main],
    each downloaded in turn. In the index-driven variant the index holds the
    last three urls, but no file is ever removed; in the scan-driven variant
    nothing is removed either. The first url is still cached in both. *)
Theorem eviction_keeps_first_file :
  ((fun st => (LRUCache.keys (Plain.lru_cache st),
               Plain.is_cached "https://httpbin.org/image/jpeg" st,
               size (Plain.files st)))
     <$> Plain.run (plain_gets test_urls) (Plain.new ".image_cache" 3 ∅)
   = Some (["https://httpbin.org/image/svg"; "https://httpbin.org/image/webp";
            "https://httpbin.org/image/png"], true, 4%nat))
  ∧ (let st := Functools.run (functools_gets test_urls)
                             (Functools.new ".image_cache" 3 ∅) in
     (Functools.access_order st,
      Functools.is_cached "https://httpbin.org/image/jpeg" st,
      size (Functools.files st)) = (test_urls, true, 4%nat)).
Proof. split; vm_compute; reflexivity. Qed.

(** C3, at the failing input: [max_size = 3]; A, B and C are downloaded,
    A is hit, D is downloaded. The index-driven variant drops B from its
    index and keeps B's file. The scan-driven variant removes nothing, and
    when a further url E is downloaded it removes the file of A, the oldest
    by modification time, although A was used after B. *)
Theorem lru_order_at_fourth_download :
  ((fun st => (LRUCache.keys (Plain.lru_cache st), Plain.is_cached url_B st))
     <$> Plain.run (plain_gets lru_order_urls) (Plain.new ".image_cache" 3 ∅)
   = Some ([url_D; url_A; url_C], true))
  ∧ (let st := Functools.run (functools_gets lru_order_urls)
                             (Functools.new ".image_cache" 3 ∅) in
     let st' := Functools.call (Functools.Get url_E) (downloaded 6) st in
     (Functools.is_cached url_A st, Functools.is_cached url_B st,
      size (Functools.files st)) = (true, true, 4%nat)
     ∧ (Functools.is_cached url_A st', Functools.is_cached url_B st')
       = (false, true)).
Proof. split; [|split]; vm_compute; reflexivity. Qed.

(** C4 (as amended). When the file of the url exists, [get], and [fetch]
    without forced refresh, touch the recency index and return the cache
    path; the trace grows by the touch (and the printed line) only, so no
    transfer takes place. Consequently, after a [get] that returned a path
    following a hit, or following a download whose file could be written,
    the url is cached and the next [get] is such a hit, whatever the
    network would answer. *)
Theorem hit_semantics
    (url : string) (env env' : Env) (p : Plain.State) (f : Functools.State) :
  (Plain.is_cached url p = true →
     ∃ p', Plain.get url env p
           = Some (Some (get_cache_path (Plain.cache_dir p) url), p')
         ∧ Plain.fetch url false env p
           = Some (Some (get_cache_path (Plain.cache_dir p) url),
                   Plain.emit (Printed (UsingCachedImage
                                 (get_cache_path (Plain.cache_dir p) url))) p')
         ∧ Plain.lru_cache p' = LRUCache.touch url (Plain.lru_cache p)
         ∧ Plain.trace p' = Plain.trace p ++ [Touched url])
  ∧ (Functools.is_cached url f = true →
     ∃ f', Functools.get url env f
           = (Some (get_cache_path (Functools.cache_dir f) url), f')
         ∧ Functools.fetch url false env f = Functools.get url env f
         ∧ Functools.access_order f'
           = Functools.access_order (Functools.touch_url url f)
         ∧ Functools.trace f'
           = Functools.trace f
             ++ [Touched url;
                 Printed (UsingCachedImage
                            (get_cache_path (Functools.cache_dir f) url))])
  ∧ (∀ path p1,
       Plain.get url env p = Some (Some path, p1) →
       Plain.is_cached url p = true ∨ ofstream_ok env = true →
       Plain.is_cached url p1 = true
       ∧ ∃ p2, Plain.get url env' p1 = Some (Some path, p2)
               ∧ Plain.trace p2 = Plain.trace p1 ++ [Touched url])
  ∧ (∀ path f1,
       Functools.get url env f = (Some path, f1) →
       Functools.is_cached url f = true ∨ ofstream_ok env = true →
       Functools.is_cached url f1 = true
       ∧ ∃ f2, Functools.get url env' f1 = (Some path, f2)
               ∧ Functools.trace f2
                 = Functools.trace f1 ++ [Touched url; Printed (UsingCachedImage path)]).
Proof.
  split; [|split; [|split]].
  - intros Hc. eexists. rewrite plain_get_hit, plain_fetch_hit by done.
    split; [reflexivity|]. split; [reflexivity|]. done.
  - intros Hc. eexists.
    split; [by apply functools_get_hit|]. split; [reflexivity|]. simpl.
    split; [done|]. by rewrite <- app_assoc.
  - intros path p1 Hget Hor.
    destruct (plain_get_cached _ _ _ _ _ Hget Hor) as [Hc ->].
    split; [done|]. eexists. rewrite plain_get_hit by done.
    split; [reflexivity | done].
  - intros path f1 Hget Hor.
    destruct (functools_get_cached _ _ _ _ _ Hget Hor) as [Hc ->].
    split; [done|]. eexists. rewrite functools_get_hit by done.
    split; [reflexivity|]. simpl. by rewrite <- app_assoc.
Qed.

Lemma hit_semantics_witness :
  match Plain.get url_A (downloaded 1) (Plain.new ".image_cache" 3 ∅) with
  | Some (Some path, p1) =>
      Plain.is_cached url_A p1 = true
      ∧ ∃ p2, Plain.get url_A (timed_out 2) p1 = Some (Some path, p2)
              ∧ Plain.trace p2 = Plain.trace p1 ++ [Touched url_A]
  | _ => False
  end.
Proof.
  destruct (Plain.get url_A (downloaded 1) (Plain.new ".image_cache" 3 ∅))
    as [[[path|] p1]|] eqn:Hget.
  - apply (hit_semantics url_A (downloaded 1) (timed_out 2)
             (Plain.new ".image_cache" 3 ∅) (Functools.new ".image_cache" 3 ∅)
             ); [exact Hget | right; reflexivity].
  - vm_compute in Hget. discriminate Hget.
  - vm_compute in Hget. discriminate Hget.
Defined.

(** The download succeeds but the cache file cannot be opened: [get]
    returns the path although no file exists, and the next [get] goes to
    the network again. *)
Lemma hit_semantics_counterexample :
  let st := Plain.new ".image_cache" 3 ∅ in
  ((fun r => (r.1, Plain.is_cached url_A r.2,
              (fun r' => Plain.trace r'.2) <$> Plain.get url_A (downloaded 2) r.2))
     <$> Plain.get url_A (unwritable 1) st)
  = Some (Some ".image_cache/d9e12899c916d19ce7166a7f91025b87.jpg", false,
          Some [Fetched url_A;
                Wrote "d9e12899c916d19ce7166a7f91025b87.jpg" "image" false;
                Indexed url_A;
                Printed (CachedImage ".image_cache/d9e12899c916d19ce7166a7f91025b87.jpg" 5);
                Fetched url_A;
                Wrote "d9e12899c916d19ce7166a7f91025b87.jpg" "image" true;
                Indexed url_A;
                Printed (CachedImage ".image_cache/d9e12899c916d19ce7166a7f91025b87.jpg" 5)]).
Proof. vm_compute. reflexivity. Qed.




(** C6 (as amended). After a transfer that ends with [CURLE_OK] and status
    200, [fetch_impl] opens and writes the cache file first and inserts the
    url as most recent in the recency index next, as the trace shows; it
    returns the cache path. The insertion does not depend on the outcome of
    the write: when the file could be opened it holds the downloaded bytes,
    and when it could not the directory is unchanged while the index lists
    the url all the same. *)
Theorem commit_order
    (url : string) (env : Env) (p : Plain.State) (f : Functools.State) :
  res env = CURLE_OK → response_code env = 200%Z →
  (1 ≤ LRUCache.max_size (Plain.lru_cache p))%nat →
  let name := url_to_filename url in
  let data := response_data env in
  let file := {| mtime := now env; content := data |} in
  (∃ p', Plain.fetch_impl url env p
         = Some (Some (get_cache_path (Plain.cache_dir p) url), p')
       ∧ Plain.trace p'
         = Plain.trace p
           ++ [Fetched url; Wrote name data (ofstream_ok env); Indexed url;
               Printed (CachedImage (get_cache_path (Plain.cache_dir p) url)
                                    (String.length data))]
       ∧ head (LRUCache.keys (Plain.lru_cache p')) = Some url
       ∧ url ∈ LRUCache.cache (Plain.lru_cache p')
       ∧ (ofstream_ok env = true → Plain.files p' = <[name := file]> (Plain.files p))
       ∧ (ofstream_ok env = false → Plain.files p' = Plain.files p))
  ∧ (∃ f', Functools.fetch_impl url env f
           = (Some (get_cache_path (Functools.cache_dir f) url), f')
         ∧ Functools.trace f'
           = Functools.trace (Functools.evict_oldest_file f)
             ++ [Fetched url; Wrote name data (ofstream_ok env); Indexed url;
                 Printed (CachedImage (get_cache_path (Functools.cache_dir f) url)
                                      (String.length data))]
         ∧ last (Functools.access_order f') = Some url
         ∧ url ∈ Functools.url_to_iterator f'
         ∧ (ofstream_ok env = true →
            Functools.files f'
            = <[name := file]> (Functools.files (Functools.evict_oldest_file f)))
         ∧ (ofstream_ok env = false →
            Functools.files f' = Functools.files (Functools.evict_oldest_file f))).
Proof.
  intros Hres Hcode Hpos name data file. split.
  - unfold Plain.fetch_impl. rewrite PlainFacts.evict_lru_id.
    rewrite !decide_True by done. simpl.
    destruct (put_defined url (get_cache_path (Plain.cache_dir p) url)
                (Plain.lru_cache p) Hpos) as [c' Hput].
    rewrite Hput. destruct (put_Some _ _ _ _ Hput) as [Hhead Hin].
    eexists. split; [reflexivity|]. simpl.
    split; [by rewrite <- !app_assoc|]. split; [done|]. split; [done|].
    unfold write_file. split; intros ->; done.
  - unfold Functools.fetch_impl. rewrite !decide_True by done.
    eexists. split.
    { reflexivity. }
    simpl. split; [by rewrite <- !app_assoc|].
    split; [by rewrite last_snoc|].
    split; [apply elem_of_union_l, elem_of_singleton_2; done|].
    unfold write_file. split; intros ->; done.
Qed.

Lemma commit_order_witness :
  ∃ p', Plain.fetch_impl url_A (downloaded 1) (Plain.new ".image_cache" 3 ∅)
        = Some (Some ".image_cache/d9e12899c916d19ce7166a7f91025b87.jpg", p')
      ∧ Plain.trace p'
        = [Fetched url_A;
           Wrote "d9e12899c916d19ce7166a7f91025b87.jpg" "image" true;
           Indexed url_A;
           Printed (CachedImage ".image_cache/d9e12899c916d19ce7166a7f91025b87.jpg" 5)]
      ∧ head (LRUCache.keys (Plain.lru_cache p')) = Some url_A.
Proof.
  destruct (commit_order url_A (downloaded 1)
              (Plain.new ".image_cache" 3 ∅) (Functools.new ".image_cache" 3 ∅))
    as [(p' & Hp & Ht & Hh & _) _].
  { reflexivity. }
  { reflexivity. }
  { simpl. lia. }
  exists p'. split; [|split; [|exact Hh]].
  - rewrite Hp. vm_compute. reflexivity.
  - rewrite Ht. vm_compute. reflexivity.
Defined.

(** The download succeeds but the cache file cannot be opened: both
    variants list the url in their index although no file exists. *)
Lemma commit_order_counterexample :
  ((fun r => (r.1, LRUCache.contains url_A (Plain.lru_cache r.2),
              Plain.is_cached url_A r.2))
     <$> Plain.fetch_impl url_A (unwritable 1) (Plain.new ".image_cache" 3 ∅))
  = Some (Some ".image_cache/d9e12899c916d19ce7166a7f91025b87.jpg", true, false)
  ∧ (let r := Functools.fetch_impl url_A (unwritable 1)
                (Functools.new ".image_cache" 3 ∅) in
     (r.1, Functools.access_order r.2, Functools.is_cached url_A r.2)
     = (Some ".image_cache/d9e12899c916d19ce7166a7f91025b87.jpg", [url_A], false)).
Proof. split; vm_compute; reflexivity. Qed.




(** The eviction at the start of [fetch_impl] can take the file of the url
    that is being refreshed. After the four downloads of [main] with
    [max_size = 3] the directory holds four files, the one of A being the
    oldest; a forced refresh of A that fails leaves three files, A not
    among them. *)
Example forced_refresh_evicts_own_file :
  let st := Functools.run (functools_gets test_urls)
                          (Functools.new ".image_cache" 3 ∅) in
  let st' := (Functools.fetch url_A true (timed_out 5) st).2 in
  (size (Functools.files st), Functools.is_cached url_A st,
   size (Functools.files st'), Functools.is_cached url_A st')
  = (4%nat, true, 3%nat, false).
Proof. vm_compute. reflexivity. Qed.

(** C8 (as amended). On a well-formed index, [LRUCache::touch] moves a key
    that is present to the most recent position (the front of [items]),
    keeping the order of the others, and changes nothing when the key is
    absent; [touch_url] moves the url to the most recent position (the back
    of [access_order]) when it is present and appends it when it is absent.
    Both are idempotent. *)
Theorem touch_semantics
    (c : LRUCache.state string string) (st : Functools.State) (key : string) :
  LRUCache.wf c → Functools.wf st →
  (key ∈ LRUCache.cache c →
     LRUCache.keys (LRUCache.touch key c)
     = key :: filter (λ k, k ≠ key) (LRUCache.keys c)
     ∧ LRUCache.cache (LRUCache.touch key c) = LRUCache.cache c)
  ∧ (key ∉ LRUCache.cache c → LRUCache.touch key c = c)
  ∧ LRUCache.touch key (LRUCache.touch key c) = LRUCache.touch key c
  ∧ Functools.access_order (Functools.touch_url key st)
    = filter (λ u, u ≠ key) (Functools.access_order st) ++ [key]
  ∧ Functools.url_to_iterator (Functools.touch_url key st)
    = {[key]} ∪ Functools.url_to_iterator st
  ∧ Functools.touch_url key (Functools.touch_url key st)
    = Functools.touch_url key st.
Proof.
  intros Hc Hst. repeat split.
  - by apply touch_keys.
  - apply touch_cache.
  - apply touch_absent.
  - apply touch_idempotent.
  - by apply FunctoolsFacts.touch_url_order.
  - by apply FunctoolsFacts.touch_url_idempotent.
Qed.

Lemma touch_semantics_witness :
  let c := LRUCache.State 3 [("b", "pb"); ("a", "pa")] {["a"; "b"]} in
  let st := Functools.with_index ["a"; "b"] {["a"; "b"]} (Functools.new "d" 3 ∅) in
  LRUCache.keys (LRUCache.touch "a" c) = ["a"; "b"]
  ∧ Functools.access_order (Functools.touch_url "a" st) = ["b"; "a"].
Proof.
  intros c st.
  assert (LRUCache.wf c) as Hc.
  { split.
    - unfold c, LRUCache.keys. simpl. apply NoDup_cons. split; [|apply NoDup_singleton].
      rewrite list_elem_of_singleton. done.
    - intros k. unfold c, LRUCache.keys. simpl.
      rewrite elem_of_union, !elem_of_singleton, elem_of_cons, list_elem_of_singleton. tauto. }
  assert (Functools.wf st) as Hst.
  { split.
    - unfold st. simpl. apply NoDup_cons. split; [|apply NoDup_singleton].
      rewrite list_elem_of_singleton. done.
    - intros k. unfold st. simpl.
      rewrite elem_of_union, !elem_of_singleton, elem_of_cons, list_elem_of_singleton. tauto. }
  destruct (touch_semantics c st "a" Hc Hst) as (Hmove & _ & _ & Hord & _).
  split.
  - destruct Hmove as [-> _]; [|reflexivity].
    unfold c. simpl. apply elem_of_union_l, elem_of_singleton_2. done.
  - rewrite Hord. reflexivity.
Defined.

Lemma touch_url_absent_counterexample :
  let st := Functools.new ".image_cache" 3 ∅ in
  ("u" ∉ Functools.url_to_iterator st)
  ∧ Functools.access_order (Functools.touch_url "u" st) = ["u"]
  ∧ Functools.touch_url "u" st ≠ st.
Proof.
  simpl. split; [apply not_elem_of_empty|]. split; [reflexivity|].
  intros Heq. apply (f_equal Functools.access_order) in Heq. discriminate Heq.
Qed.

(** C9 (as amended). [url_to_filename] is a function of the url alone. With
    [segment] the text after the last [/] of the url, the key is the MD5 hex
    digest of the url followed by
    - [.jpg] when [segment] has no period, has its last period in first
      position, or is [..];
    - otherwise the period and the text after the last period of [segment],
      even when that text is empty.
    It is the key the specification describes whenever [segment] has no
    period, and whenever its last period is not in first position and is
    followed by some text. *)
Theorem url_to_filename_key (url : string) :
  let segment := path_filename url in
  let digest := md5_hash url in
  match rfind "." segment with
  | None =>
      url_to_filename url = digest +:+ ".jpg"
      ∧ url_to_filename url = keyFor_spec url
  | Some O => url_to_filename url = digest +:+ ".jpg"
  | Some (S pos) =>
      if decide (segment = "..") then url_to_filename url = digest +:+ ".jpg"
      else url_to_filename url = digest +:+ "." +:+ substr_from (S (S pos)) segment
           ∧ (substr_from (S (S pos)) segment ≠ EmptyString →
              url_to_filename url = keyFor_spec url)
  end.
Proof.
  intros segment digest.
  unfold url_to_filename, keyFor_spec, spec_extension_text, path_extension.
  fold segment. fold digest.
  destruct (rfind "." segment) as [[|pos]|] eqn:Hr.
  - destruct (decide (segment = "." ∨ segment = "..")); by rewrite decide_True.
  - assert (segment ≠ ".") as Hdot.
    { intros Hs. rewrite Hs in Hr. by apply rfind_period_single in Hr. }
    destruct (decide (segment = "..")) as [Hdots|Hdots].
    + rewrite (decide_True (P := segment = "." ∨ segment = "..")) by by right.
      by rewrite decide_True.
    + rewrite (decide_False (P := segment = "." ∨ segment = "..")) by by intros [?|?].
      rewrite (rfind_Some _ _ _ Hr). rewrite decide_False by done.
      split; [done|]. intros Hne.
      by destruct (substr_from (S (S pos)) segment).
  - destruct (decide (segment = "." ∨ segment = "..")); by rewrite decide_True.
Qed.

Lemma url_to_filename_key_witness :
  url_to_filename "https://httpbin.org/logo.png"
  = md5_hash "https://httpbin.org/logo.png" +:+ ".png"
  ∧ url_to_filename "https://httpbin.org/logo.png"
    = keyFor_spec "https://httpbin.org/logo.png".
Proof.
  pose proof (url_to_filename_key "https://httpbin.org/logo.png") as Hkey.
  cbv zeta in Hkey.
  change (rfind "." (path_filename "https://httpbin.org/logo.png"))
    with (Some 4%nat) in Hkey.
  cbv iota in Hkey.
  rewrite decide_False in Hkey by (vm_compute; discriminate).
  destruct Hkey as [Hcode Hspec]. split.
  - exact Hcode.
  - apply Hspec. vm_compute. discriminate.
Defined.

(** An identifier that ends in a period: the code keeps the bare period as
    extension where the specification takes the default one. *)
Lemma url_to_filename_trailing_period_counterexample :
  url_to_filename "https://httpbin.org/image." = "50f5927cc5d8f624df75e21d4f8a1df4."
  ∧ keyFor_spec "https://httpbin.org/image." = "50f5927cc5d8f624df75e21d4f8a1df4.jpg"
  ∧ url_to_filename "https://httpbin.org/image." ≠ keyFor_spec "https://httpbin.org/image.".
Proof. vm_compute. repeat split; congruence. Qed.

(** C10 (as amended). When the file of the url exists and the index is
    well formed, [get] returns the cache path of the url, leaves every file
    of the directory as it is and adds to the trace the touch (and the
    printed line) only: nothing is fetched, written or removed. In the
    recency index a url that is listed moves to the most recent position
    (the front of the list of the index-driven variant, the back of the
    list of the scan-driven one), the other urls keep their order and the
    listed urls stay the same; a url that is not listed leaves the index of
    the index-driven variant unchanged and is appended to the list of the
    scan-driven variant. *)
Theorem hit_frame
    (url : string) (env : Env) (p : Plain.State) (f : Functools.State) :
  LRUCache.wf (Plain.lru_cache p) → Functools.wf f →
  Plain.is_cached url p = true → Functools.is_cached url f = true →
  (∃ p', Plain.get url env p
         = Some (Some (get_cache_path (Plain.cache_dir p) url), p')
       ∧ Plain.files p' = Plain.files p
       ∧ Plain.trace p' = Plain.trace p ++ [Touched url]
       ∧ LRUCache.keys (Plain.lru_cache p') ≡ₚ LRUCache.keys (Plain.lru_cache p)
       ∧ LRUCache.cache (Plain.lru_cache p') = LRUCache.cache (Plain.lru_cache p)
       ∧ (url ∈ LRUCache.cache (Plain.lru_cache p) →
          LRUCache.keys (Plain.lru_cache p')
          = url :: filter (λ k, k ≠ url) (LRUCache.keys (Plain.lru_cache p)))
       ∧ (url ∉ LRUCache.cache (Plain.lru_cache p) →
          Plain.lru_cache p' = Plain.lru_cache p))
  ∧ (∃ f', Functools.get url env f
           = (Some (get_cache_path (Functools.cache_dir f) url), f')
         ∧ Functools.files f' = Functools.files f
         ∧ Functools.trace f'
           = Functools.trace f
             ++ [Touched url;
                 Printed (UsingCachedImage
                            (get_cache_path (Functools.cache_dir f) url))]
         ∧ (url ∈ Functools.url_to_iterator f →
            Functools.access_order f' ≡ₚ Functools.access_order f
            ∧ Functools.access_order f'
              = filter (λ u, u ≠ url) (Functools.access_order f) ++ [url]
            ∧ Functools.url_to_iterator f' = Functools.url_to_iterator f)
         ∧ (url ∉ Functools.url_to_iterator f →
            Functools.access_order f' = Functools.access_order f ++ [url])).
Proof.
  intros Hp Hf Hcp Hcf. split.
  - eexists. split; [by apply plain_get_hit|]. simpl.
    split; [done|]. split; [done|]. split; [|split; [|split]].
    + destruct (decide (url ∈ LRUCache.cache (Plain.lru_cache p))) as [Hin|Hout].
      * rewrite touch_keys by done. destruct Hp as [Hnd Hdom].
        apply move_to_front_Permutation; [done | by apply Hdom].
      * by rewrite touch_absent.
    + apply touch_cache.
    + intros Hin. by apply touch_keys.
    + apply touch_absent.
  - eexists. split; [by apply functools_get_hit|]. simpl.
    split; [done|]. split; [by rewrite <- app_assoc|].
    pose proof (FunctoolsFacts.touch_url_order url f Hf) as Hord.
    unfold Functools.touch_url in *. simpl in *. destruct Hf as [Hnd Hdom]. split.
    + intros Hin. rewrite Hord. split; [|split; [done|]].
      * rewrite <- Permutation_cons_append.
        apply move_to_front_Permutation; [done | by apply Hdom].
      * apply set_eq. intros u. rewrite elem_of_union, elem_of_singleton.
        split; [by intros [->|?] | by right].
    + intros Hout. by rewrite decide_False.
Qed.

(** A and B are listed, B used last; both files exist; [get] of A. *)
Lemma hit_frame_witness :
  let name_A := "d9e12899c916d19ce7166a7f91025b87.jpg" in
  let name_B := url_to_filename url_B in
  let d : Directory := {[ name_A := {| mtime := 1; content := "image" |};
                          name_B := {| mtime := 2; content := "image" |} ]} in
  let p := {| Plain.cache_dir := ".image_cache"; Plain.max_size := 3;
              Plain.lru_cache :=
                LRUCache.State 3 [(url_B, get_cache_path ".image_cache" url_B);
                                  (url_A, get_cache_path ".image_cache" url_A)]
                               (list_to_set [url_B; url_A]);
              Plain.files := d; Plain.trace := [] |} in
  let f := {| Functools.cache_dir := ".image_cache"; Functools.max_size := 3;
              Functools.access_order := [url_A; url_B];
              Functools.url_to_iterator := list_to_set [url_A; url_B];
              Functools.files := d; Functools.trace := [] |} in
  (∃ p', Plain.get url_A (timed_out 3) p
         = Some (Some ".image_cache/d9e12899c916d19ce7166a7f91025b87.jpg", p')
         ∧ Plain.files p' = d
         ∧ LRUCache.keys (Plain.lru_cache p') = [url_A; url_B])
  ∧ (∃ f', Functools.get url_A (timed_out 3) f
           = (Some ".image_cache/d9e12899c916d19ce7166a7f91025b87.jpg", f')
           ∧ Functools.files f' = d
           ∧ Functools.access_order f' = [url_B; url_A]).
Proof.
  intros name_A name_B d p f.
  destruct (hit_frame url_A (timed_out 3) p f)
    as [(p' & Hp & Hpf & _ & _ & _ & Hpk & _) (f' & Hf & Hff & _ & Hfk & _)].
  - apply wf_intro; [|reflexivity].
    apply NoDup_cons. split; [|apply NoDup_singleton].
    intros Hin%list_elem_of_singleton. vm_compute in Hin. discriminate Hin.
  - apply functools_wf_intro; [|reflexivity].
    apply NoDup_cons. split; [|apply NoDup_singleton].
    intros Hin%list_elem_of_singleton. vm_compute in Hin. discriminate Hin.
  - vm_compute. reflexivity.
  - vm_compute. reflexivity.
  - split.
    + exists p'. split; [|split; [exact Hpf|]].
      * rewrite Hp. vm_compute. reflexivity.
      * rewrite Hpk; [vm_compute; reflexivity|].
        apply elem_of_list_to_set. right. left.
    + exists f'. split; [|split; [exact Hff|]].
      * rewrite Hf. vm_compute. reflexivity.
      * destruct Hfk as (_ & -> & _); [|vm_compute; reflexivity].
        apply elem_of_list_to_set. left.
Defined.

(** A file left by an earlier run: the list of the scan-driven variant is
    empty before the hit and holds the url after it. *)
Lemma hit_frame_counterexample :
  let name := "d9e12899c916d19ce7166a7f91025b87.jpg" in
  let st := Functools.new ".image_cache" 3
              {[ name := {| mtime := 1; content := "image" |} ]} in
  (Functools.is_cached url_A st, Functools.get_cache_size st,
   Functools.access_order (Functools.get url_A (timed_out 2) st).2,
   Functools.get_cache_size (Functools.get url_A (timed_out 2) st).2)
  = (true, 0%nat, [url_A], 1%nat).
Proof. vm_compute. reflexivity. Qed.

(** * Further properties of the code *)

(** ** [LRUCache]: [put], [get], [contains] *)

Section LRUCache_more.
Context {Key : Type} `{Countable Key} {Value : Type}.
Implicit Types (l : list (Key * Value)) (c : LRUCache.state Key Value).

Lemma node_of_erase_node_ne k key l :
  k ≠ key → LRUCache.node_of k (LRUCache.erase_node key l) = LRUCache.node_of k l.
Proof.
  intros Hne. induction l as [|n l IH]; simpl; [done|].
  destruct (decide (n.1 = key)) as [Hn|Hn]; simpl.
  - rewrite decide_False by congruence. done.
  - case_decide; [done | exact IH].
Qed.

Lemma node_of_app_l k l1 l2 :
  k ∈ l1.*1 → LRUCache.node_of k (l1 ++ l2) = LRUCache.node_of k l1.
Proof.
  induction l1 as [|n l1 IH]; simpl.
  - intros Hin. by apply elem_of_nil in Hin.
  - rewrite elem_of_cons. intros Hin. case_decide as Hn; [done|].
    apply IH. destruct Hin as [->|?]; [done | done].
Qed.

Lemma node_of_splice_front k l :
  LRUCache.node_of k (LRUCache.splice_front k l) = LRUCache.node_of k l.
Proof.
  unfold LRUCache.splice_front.
  destruct (LRUCache.node_of k l) as [n|] eqn:Hn; [|done].
  destruct (node_of_Some _ _ _ Hn) as [Hn1 _]. simpl. by rewrite decide_True.
Qed.

(** What [get] returns. *)
Lemma get_result k c :
  (LRUCache.get k c).1
  = if decide (k ∈ LRUCache.cache c) then snd <$> LRUCache.node_of k (LRUCache.items c)
    else None.
Proof.
  unfold LRUCache.get. case_decide; [|done]. simpl. by rewrite node_of_splice_front.
Qed.

Lemma put_None_iff key value c :
  LRUCache.put key value c = None
  ↔ (key ∉ LRUCache.cache c) ∧ LRUCache.items c = [] ∧ LRUCache.max_size c = 0%nat.
Proof.
  unfold LRUCache.put. case_decide as Hk.
  - split; [done | by intros [? _]].
  - case_decide as Hfull.
    + destruct (last (LRUCache.items c)) as [n|] eqn:Hlast.
      * split; [done|]. intros (_ & Hnil & _). by rewrite Hnil in Hlast.
      * apply last_None in Hlast. split; [|done]. intros _.
        rewrite Hlast in Hfull. simpl in Hfull. split; [done|]. split; [done | lia].
    + split; [done|]. intros (_ & Hnil & Hzero). rewrite Hnil in Hfull. simpl in Hfull. lia.
Qed.

(** X1. [put] has undefined behaviour in one situation only: the key is
    not in the map, the list is empty and [max_size] is 0, so that
    [items.back()] is called on an empty list. *)
Theorem put_undefined_iff key value c :
  LRUCache.put key value c = None
  ↔ (key ∉ LRUCache.cache c) ∧ LRUCache.items c = [] ∧ LRUCache.max_size c = 0%nat.
Proof. apply put_None_iff. Qed.

(** X2. After [put key value], [get key] returns [value], leaves the cache
    as [put] left it (the key is already in front), and [contains key]
    holds. *)
Theorem put_then_get key value c c' :
  LRUCache.put key value c = Some c' →
  LRUCache.get key c' = (Some value, c') ∧ LRUCache.contains key c' = true.
Proof.
  intros Hput.
  assert (∀ m l s, key ∈ s →
            LRUCache.get key (LRUCache.State m ((key, value) :: l) s)
            = (Some value, LRUCache.State m ((key, value) :: l) s)) as Hfront.
  { intros m l s Hin. unfold LRUCache.get, LRUCache.splice_front. simpl.
    rewrite (decide_True (P := key ∈ s)) by done.
    destruct (decide (key = key)); [simpl | done].
    by destruct (decide (key = key)). }
  assert (∀ s : gset Key, key ∈ {[key]} ∪ s) as Hin
    by (intros s; apply elem_of_union_l; by apply elem_of_singleton_2).
  unfold LRUCache.put in Hput.
  case_decide; [|case_decide; [destruct (last (LRUCache.items c)); [|done]|]];
    injection Hput as <-;
    (split; [by apply Hfront | by apply bool_decide_eq_true, Hin]).
Qed.

(** X3. [put] leaves the other entries alone: a key other than the one put
    that is still in the cache was there before, and [get] returns for it
    the value it returned before. *)
Theorem put_keeps_other_values key value k c c' :
  LRUCache.wf c → LRUCache.put key value c = Some c' →
  k ≠ key → k ∈ LRUCache.cache c' →
  k ∈ LRUCache.cache c ∧ (LRUCache.get k c').1 = (LRUCache.get k c).1.
Proof.
  intros [Hnd Hdom] Hput Hne Hin. rewrite !get_result.
  unfold LRUCache.put, LRUCache.keys in *.
  case_decide as Hk; [|case_decide as Hfull].
  - injection Hput as <-. simpl in *.
    apply elem_of_union in Hin as [Hin|Hin]; [by apply elem_of_singleton in Hin|].
    apply elem_of_difference in Hin as [Hin _]. split; [done|].
    rewrite (decide_True (P := k ∈ _ ∪ _))
      by (apply elem_of_union_r, elem_of_difference; split;
          [done | by rewrite elem_of_singleton]).
    rewrite (decide_True (P := k ∈ LRUCache.cache c)) by done.
    rewrite (decide_False (P := key = k)) by congruence.
    by rewrite node_of_erase_node_ne.
  - destruct (last (LRUCache.items c)) as [n|] eqn:Hlast; [|done].
    injection Hput as <-. simpl in *.
    apply elem_of_union in Hin as [Hin|Hin]; [by apply elem_of_singleton in Hin|].
    apply elem_of_difference in Hin as [Hin Hn]. rewrite elem_of_singleton in Hn.
    split; [done|].
    rewrite (decide_True (P := k ∈ _ ∪ _))
      by (apply elem_of_union_r, elem_of_difference; split;
          [done | by rewrite elem_of_singleton]).
    rewrite (decide_True (P := k ∈ LRUCache.cache c)) by done.
    rewrite (decide_False (P := key = k)) by congruence.
    pose proof (last_removelast _ _ Hlast) as Hsplit.
    rewrite Hsplit at 2. symmetry. apply f_equal, node_of_app_l.
    apply Hdom in Hin. rewrite Hsplit, fmap_app, elem_of_app in Hin.
    destruct Hin as [?|Hin]; [done|]. simpl in Hin.
    apply list_elem_of_singleton in Hin. done.
  - injection Hput as <-. simpl in *.
    apply elem_of_union in Hin as [Hin|Hin]; [by apply elem_of_singleton in Hin|].
    split; [done|].
    rewrite (decide_True (P := k ∈ _ ∪ _)) by (by apply elem_of_union_r).
    rewrite (decide_True (P := k ∈ LRUCache.cache c)) by done.
    by rewrite (decide_False (P := key = k)) by congruence.
Qed.

(** X4. [put] on a key that is already cached replaces its value in place:
    nothing is evicted, the size and the set of keys are unchanged, and the
    key becomes the most recent one. *)
Theorem put_existing key value c :
  LRUCache.wf c → key ∈ LRUCache.cache c →
  ∃ c', LRUCache.put key value c = Some c'
        ∧ LRUCache.keys c' = key :: filter (λ k, k ≠ key) (LRUCache.keys c)
        ∧ LRUCache.cache c' = LRUCache.cache c
        ∧ LRUCache.size c' = LRUCache.size c.
Proof.
  intros [Hnd Hdom] Hin. unfold LRUCache.put, LRUCache.keys, LRUCache.size in *.
  rewrite decide_True by done. eexists. split; [done|]. simpl.
  rewrite erase_node_keys by done. split; [done|]. split.
  - apply set_eq. intros k.
    rewrite elem_of_union, elem_of_singleton, elem_of_difference, elem_of_singleton.
    destruct (decide (k = key)) as [->|]; tauto.
  - apply erase_node_length. by apply Hdom.
Qed.

End LRUCache_more.

(** X5. [put] of a key that is not cached, on a well-formed cache within a
    bound of at least one: while there is room the key is added in front;
    when the cache is full the entry at the back of the list, the least
    recently used one, is dropped from the list and from the map, and the
    size stays the same. *)
Theorem put_fresh {Key} `{Countable Key} {Value}
    (key : Key) (value : Value) (c : LRUCache.state Key Value) :
  LRUCache.wf c → key ∉ LRUCache.cache c →
  (1 ≤ LRUCache.max_size c)%nat →
  (LRUCache.size c ≤ LRUCache.max_size c)%nat →
  ∃ c', LRUCache.put key value c = Some c'
    ∧ if decide (LRUCache.size c < LRUCache.max_size c)%nat then
        LRUCache.keys c' = key :: LRUCache.keys c
        ∧ LRUCache.cache c' = {[key]} ∪ LRUCache.cache c
      else
        ∃ lru, last (LRUCache.keys c) = Some lru
             ∧ LRUCache.keys c' = key :: removelast (LRUCache.keys c)
             ∧ LRUCache.cache c' = {[key]} ∪ LRUCache.cache c ∖ {[lru]}
             ∧ (lru ∉ LRUCache.cache c')
             ∧ LRUCache.size c' = LRUCache.size c.
Proof.
  intros [Hnd Hdom] Hout Hpos Hsize. unfold LRUCache.size, LRUCache.keys in *.
  case_decide as Hroom.
  - rewrite put_fresh_room by done. eexists. split; [done|]. done.
  - destruct (last (LRUCache.items c)) as [n|] eqn:Hlast.
    2:{ apply last_None in Hlast. rewrite Hlast in Hroom. simpl in Hroom. lia. }
    rewrite (put_fresh_full key value c n) by (done || lia).
    eexists. split; [done|]. exists n.1. simpl.
    pose proof (last_removelast _ _ Hlast) as Hsplit.
    set (l' := removelast (LRUCache.items c)) in *.
    rewrite Hsplit in Hnd, Hdom |- *. rewrite fmap_app in Hnd, Hdom |- *. simpl in *.
    rewrite last_snoc, removelast_last, length_app. simpl.
    split; [done|]. split; [done|]. split; [done|]. split; [|lia].
    apply NoDup_app in Hnd as (_ & Hdisj & _).
    rewrite elem_of_union, elem_of_singleton, elem_of_difference, elem_of_singleton.
    intros [Heq|[_ Hne]]; [|done].
    apply Hout, Hdom, elem_of_app. right. rewrite <- Heq. left.
Qed.

(** ** [clear] *)

Lemma foldl_delete_lookup (names : list string) (d : Directory) k :
  foldl (fun d n => delete n d) d names !! k
  = if decide (k ∈ names) then None else d !! k.
Proof.
  revert d. induction names as [|n names IH]; intros d.
  - destruct (decide (k ∈ [])) as [Hin|_]; [by apply elem_of_nil in Hin | done].
  - simpl. rewrite IH. destruct (decide (k = n)) as [->|Hne].
    + rewrite lookup_delete_eq. rewrite (decide_True (P := n ∈ n :: names)) by left.
      by case_decide.
    + rewrite lookup_delete_ne by done.
      destruct (decide (k ∈ names)) as [Hin|Hout].
      * by rewrite decide_True by by right.
      * rewrite decide_False; [done|]. rewrite not_elem_of_cons. done.
Qed.

Lemma foldl_delete_all (d : Directory) :
  foldl (fun d n => delete n d) d (map_to_list d).*1 = ∅.
Proof.
  apply map_eq. intros k. rewrite foldl_delete_lookup, lookup_empty.
  case_decide as Hin; [done|].
  destruct (d !! k) as [f|] eqn:Hk; [|done].
  exfalso. apply Hin. apply list_elem_of_fmap. exists (k, f).
  split; [done | by apply elem_of_map_to_list].
Qed.

Lemma plain_remove_all names st :
  let st' := foldl (fun st name => Plain.emit (Removed name)
                      (Plain.with_files (delete name (Plain.files st)) st)) st names in
  Plain.files st' = foldl (fun d n => delete n d) (Plain.files st) names
  ∧ Plain.trace st' = Plain.trace st ++ (Removed <$> names).
Proof.
  revert st. induction names as [|n names IH]; intros st; simpl.
  - by rewrite app_nil_r.
  - destruct (IH (Plain.emit (Removed n)
                    (Plain.with_files (delete n (Plain.files st)) st))) as [-> ->].
    simpl. by rewrite <- app_assoc.
Qed.

Lemma functools_remove_all names st :
  let st' := foldl (fun st name => Functools.emit (Removed name)
                      (Functools.with_files (delete name (Functools.files st)) st))
                   st names in
  Functools.files st' = foldl (fun d n => delete n d) (Functools.files st) names
  ∧ Functools.trace st' = Functools.trace st ++ (Removed <$> names)
  ∧ Functools.cache_dir st' = Functools.cache_dir st
  ∧ Functools.max_size st' = Functools.max_size st.
Proof.
  revert st. induction names as [|n names IH]; intros st; simpl.
  - by rewrite app_nil_r.
  - destruct (IH (Functools.emit (Removed n)
                    (Functools.with_files (delete n (Functools.files st)) st)))
      as (-> & -> & -> & ->).
    simpl. by rewrite <- app_assoc.
Qed.

Lemma plain_clear_files st : Plain.files (Plain.clear st) = ∅.
Proof.
  unfold Plain.clear. simpl.
  destruct (plain_remove_all (map_to_list (Plain.files st)).*1 st) as [-> _].
  apply foldl_delete_all.
Qed.

Lemma functools_clear_files st : Functools.files (Functools.clear st) = ∅.
Proof.
  unfold Functools.clear. simpl.
  destruct (functools_remove_all (map_to_list (Functools.files st)).*1 st) as [-> _].
  apply foldl_delete_all.
Qed.

(** X6. [clear] removes every regular file of the cache directory, each
    exactly once, empties the list and the map of the recency index and
    prints one line; afterwards no regular file is left, [get_cache_size]
    is 0, the index lists no url, and the directory name and the capacity
    are as before. *)
Theorem clear_empties (p : Plain.State) (f : Functools.State) :
  (Plain.files (Plain.clear p) = ∅
   ∧ Plain.trace (Plain.clear p)
     = Plain.trace p ++ (Removed <$> (map_to_list (Plain.files p)).*1)
       ++ [Printed (ClearedCacheDirectory (Plain.cache_dir p))]
   ∧ NoDup (map_to_list (Plain.files p)).*1
   ∧ (∀ name, name ∈ (map_to_list (Plain.files p)).*1
              ↔ is_Some (Plain.files p !! name))
   ∧ Plain.get_cache_size (Plain.clear p) = 0%nat
   ∧ Plain.lru_cache (Plain.clear p)
     = LRUCache.State (LRUCache.max_size (Plain.lru_cache p)) [] ∅
   ∧ (∀ url, LRUCache.contains url (Plain.lru_cache (Plain.clear p)) = false)
   ∧ Plain.cache_dir (Plain.clear p) = Plain.cache_dir p
   ∧ Plain.max_size (Plain.clear p) = Plain.max_size p)
  ∧ (Functools.files (Functools.clear f) = ∅
     ∧ Functools.trace (Functools.clear f)
       = Functools.trace f ++ (Removed <$> (map_to_list (Functools.files f)).*1)
         ++ [Printed (ClearedCacheDirectory (Functools.cache_dir f))]
     ∧ NoDup (map_to_list (Functools.files f)).*1
     ∧ (∀ name, name ∈ (map_to_list (Functools.files f)).*1
                ↔ is_Some (Functools.files f !! name))
     ∧ Functools.get_cache_size (Functools.clear f) = 0%nat
     ∧ Functools.access_order (Functools.clear f) = []
     ∧ Functools.url_to_iterator (Functools.clear f) = ∅
     ∧ Functools.cache_dir (Functools.clear f) = Functools.cache_dir f
     ∧ Functools.max_size (Functools.clear f) = Functools.max_size f).
Proof.
  assert (∀ d : Directory,
            NoDup (map_to_list d).*1
            ∧ ∀ name, name ∈ (map_to_list d).*1 ↔ is_Some (d !! name)) as Hlist.
  { intros d. split; [apply NoDup_fst_map_to_list|].
    intros name. rewrite list_elem_of_fmap. split.
    - intros ([n file] & -> & Hin). apply elem_of_map_to_list in Hin. by eexists.
    - intros [file Hin]. exists (name, file). split; [done|].
      by apply elem_of_map_to_list. }
  split.
  - destruct (PlainFacts.remove_all_frame (map_to_list (Plain.files p)).*1 p)
      as (Hlru & Hmax & Hdir). simpl in Hlru, Hmax, Hdir.
    split; [apply plain_clear_files|]. split.
    { unfold Plain.clear. simpl.
      destruct (plain_remove_all (map_to_list (Plain.files p)).*1 p) as [_ ->].
      rewrite Hdir. by rewrite <- app_assoc. }
    split; [apply Hlist|]. split; [apply Hlist|]. split; [done|].
    split; [unfold Plain.clear, LRUCache.clear; simpl; by rewrite Hlru|].
    split.
    { intros url. apply bool_decide_eq_false. unfold Plain.clear. simpl.
      apply not_elem_of_empty. }
    unfold Plain.clear. simpl. by rewrite Hdir, Hmax.
  - destruct (functools_remove_all (map_to_list (Functools.files f)).*1 f)
      as (_ & Htrace & Hdir & Hmax). simpl in Htrace, Hdir, Hmax.
    split; [apply functools_clear_files|]. split.
    { unfold Functools.clear. simpl. rewrite Htrace, Hdir. by rewrite <- app_assoc. }
    split; [apply Hlist|]. split; [apply Hlist|].
    split; [done|]. split; [done|]. split; [done|].
    unfold Functools.clear. simpl. by rewrite Hdir, Hmax.
Qed.

(** ** The index-driven variant: what every reachable state satisfies *)

Lemma wf_size {Key} `{Countable Key} {Value} (c : LRUCache.state Key Value) :
  LRUCache.wf c → size (LRUCache.cache c) = LRUCache.size c.
Proof.
  intros [Hnd Hdom]. unfold LRUCache.size.
  rewrite <- (length_fmap fst (LRUCache.items c)).
  rewrite <- (size_list_to_set (C := gset Key)) by exact Hnd.
  f_equal. apply set_eq. intros k. rewrite elem_of_list_to_set. apply Hdom.
Qed.

Lemma erase_node_elem_of {Key} `{Countable Key} {Value}
    (key : Key) (l : list (Key * Value)) x :
  x ∈ LRUCache.erase_node key l → x ∈ l.
Proof.
  induction l as [|n l IH]; simpl; [done|].
  case_decide; [by right|].
  rewrite !elem_of_cons. intros [->|Hx]; [by left | right; by apply IH].
Qed.

Lemma put_items_elem_of {Key} `{Countable Key} {Value}
    (key : Key) (value : Value) (c c' : LRUCache.state Key Value) x :
  LRUCache.put key value c = Some c' →
  x ∈ LRUCache.items c' → x = (key, value) ∨ x ∈ LRUCache.items c.
Proof.
  unfold LRUCache.put.
  case_decide; [|case_decide; [destruct (last (LRUCache.items c)) eqn:Hlast; [|done]|]];
    intros [= <-]; simpl; rewrite elem_of_cons; intros [->|Hx]; try by left.
  - right. by eapply erase_node_elem_of.
  - right. rewrite (last_removelast _ _ Hlast). apply elem_of_app. by left.
  - by right.
Qed.

Lemma touch_items_elem_of {Key} `{Countable Key} {Value}
    (key : Key) (c : LRUCache.state Key Value) x :
  x ∈ LRUCache.items (LRUCache.touch key c) → x ∈ LRUCache.items c.
Proof.
  unfold LRUCache.touch, LRUCache.splice_front. case_decide; [simpl|done].
  destruct (LRUCache.node_of key (LRUCache.items c)) as [n|] eqn:Hn; [|done].
  destruct (node_of_Some _ _ _ Hn) as [_ Hin].
  intros Hx. apply elem_of_cons in Hx as [->|Hx]; [done|].
  by eapply erase_node_elem_of.
Qed.

Lemma plain_call_paths c env st st' :
  (∀ url path, (url, path) ∈ LRUCache.items (Plain.lru_cache st) →
               path = get_cache_path (Plain.cache_dir st) url) →
  Plain.call c env st = Some st' →
  Plain.cache_dir st' = Plain.cache_dir st
  ∧ Plain.max_size st' = Plain.max_size st
  ∧ LRUCache.max_size (Plain.lru_cache st') = LRUCache.max_size (Plain.lru_cache st)
  ∧ ∀ url path, (url, path) ∈ LRUCache.items (Plain.lru_cache st') →
                path = get_cache_path (Plain.cache_dir st') url.
Proof.
  intros Hpaths.
  assert (∀ url r st1, Plain.fetch_impl url env st = Some (r, st1) →
            Plain.cache_dir st1 = Plain.cache_dir st
            ∧ Plain.max_size st1 = Plain.max_size st
            ∧ LRUCache.max_size (Plain.lru_cache st1)
              = LRUCache.max_size (Plain.lru_cache st)
            ∧ ∀ u path, (u, path) ∈ LRUCache.items (Plain.lru_cache st1) →
                        path = get_cache_path (Plain.cache_dir st1) u) as Himpl.
  { intros url r st1. unfold Plain.fetch_impl. rewrite PlainFacts.evict_lru_id.
    repeat case_decide; simpl; try (by intros [= <- <-]).
    destruct (LRUCache.put _ _ _) as [c'|] eqn:Hput; [|done].
    intros [= <- <-]. simpl. split; [done|]. split; [done|]. split.
    - unfold LRUCache.put in Hput.
      repeat case_decide; try destruct (last _); by simplify_eq.
    - intros u path Hin. apply (put_items_elem_of _ _ _ _ _ Hput) in Hin.
      destruct Hin as [[= -> ->]|Hin]; [done | by apply Hpaths]. }
  assert (∀ url, let st1 := Plain.with_lru (LRUCache.touch url (Plain.lru_cache st)) st in
            ∀ u path, (u, path) ∈ LRUCache.items (Plain.lru_cache st1) →
                      path = get_cache_path (Plain.cache_dir st1) u) as Htouch.
  { intros url st1 u path Hin. simpl in *. apply Hpaths.
    by apply (touch_items_elem_of url (Plain.lru_cache st)). }
  destruct c as [url|url force|]; simpl.
  - unfold Plain.get, Plain.fetch. destruct (file_exists _ _); simpl.
    + intros [= <-]. simpl. rewrite touch_max_size. repeat split; try done. apply Htouch.
    + destruct (Plain.fetch_impl url env st) as [[r st1]|] eqn:Hf; [|done].
      intros [= <-]. by eapply Himpl.
  - unfold Plain.fetch. destruct (negb force && file_exists _ _); simpl.
    + intros [= <-]. simpl. rewrite touch_max_size. repeat split; try done. apply Htouch.
    + destruct (Plain.fetch_impl url env st) as [[r st1]|] eqn:Hf; [|done].
      intros [= <-]. by eapply Himpl.
  - intros [= <-]. unfold Plain.clear. simpl.
    destruct (PlainFacts.remove_all_frame (map_to_list (Plain.files st)).*1 st)
      as (Hl & Hm & Hd). simpl in Hl, Hm, Hd. rewrite Hl, Hm, Hd.
    repeat split; try done. intros u path Hin. by apply elem_of_nil in Hin.
Qed.

(** X7. In every state the index-driven variant reaches from its
    constructor, whatever the capacity and the answers of the network:
    the list and the map of the [LRUCache] hold the same keys, each once,
    so [size()] is also the size of the map; every entry stores the cache
    path of its url; and the cache directory name and the capacity are the
    ones given to the constructor. *)
Theorem plain_reachable
    (cache_dir : string) (max_size : nat) (d : Directory)
    (cs : list (Plain.Call * Env)) (st : Plain.State) :
  Plain.run cs (Plain.new cache_dir max_size d) = Some st →
  NoDup (LRUCache.keys (Plain.lru_cache st))
  ∧ (∀ url, LRUCache.contains url (Plain.lru_cache st) = true
            ↔ url ∈ LRUCache.keys (Plain.lru_cache st))
  ∧ size (LRUCache.cache (Plain.lru_cache st)) = Plain.get_cache_size st
  ∧ (∀ url path, (url, path) ∈ LRUCache.items (Plain.lru_cache st) →
                 path = get_cache_path cache_dir url)
  ∧ Plain.cache_dir st = cache_dir
  ∧ Plain.max_size st = max_size
  ∧ LRUCache.max_size (Plain.lru_cache st) = max_size.
Proof.
  intros Hrun. pose proof (plain_run_wf _ _ _ _ _ Hrun) as Hwf.
  assert (∀ st0, (∀ url path, (url, path) ∈ LRUCache.items (Plain.lru_cache st0) →
                    path = get_cache_path (Plain.cache_dir st0) url) →
            Plain.run cs st0 = Some st →
            Plain.cache_dir st = Plain.cache_dir st0
            ∧ Plain.max_size st = Plain.max_size st0
            ∧ LRUCache.max_size (Plain.lru_cache st)
              = LRUCache.max_size (Plain.lru_cache st0)
            ∧ ∀ url path, (url, path) ∈ LRUCache.items (Plain.lru_cache st) →
                          path = get_cache_path (Plain.cache_dir st) url) as Hgen.
  { clear Hrun Hwf. induction cs as [|[c env] cs IH]; intros st0 Hpaths; simpl.
    - by intros [= <-].
    - destruct (Plain.call c env st0) as [st1|] eqn:Hcall; [|done].
      destruct (plain_call_paths _ _ _ _ Hpaths Hcall) as (Hd & Hm & Hl & Hp).
      intros Hrun. destruct (IH st1 Hp Hrun) as (Hd' & Hm' & Hl' & Hp').
      split; [congruence|]. split; [congruence|]. split; [congruence | done]. }
  destruct (Hgen (Plain.new cache_dir max_size d)) as (Hd & Hm & Hl & Hp);
    [intros url path Hin; by apply elem_of_nil in Hin | done |].
  simpl in Hd, Hm, Hl. destruct (Hwf) as [Hnd Hdom].
  split; [done|]. split.
  { intros url. unfold LRUCache.contains. rewrite bool_decide_eq_true. apply Hdom. }
  split; [by apply wf_size|]. split; [|done].
  intros url path Hin. rewrite <- Hd. by apply Hp.
Qed.


(** ** The scan-driven variant: eviction and its bounds *)

(** X9. [evict_oldest_file] leaves the state alone while the directory
    holds at most [max_size] files. When it holds more, exactly one file is
    removed, one whose modification time no other file precedes (among
    files of equal time, the one with the least name), and the removal is
    printed. The access-order list and its map are never touched. *)
Theorem evict_oldest_file_oldest (st : Functools.State) :
  let st' := Functools.evict_oldest_file st in
  Functools.access_order st' = Functools.access_order st
  ∧ Functools.url_to_iterator st' = Functools.url_to_iterator st
  ∧ ((size (Functools.files st) ≤ Functools.max_size st)%nat → st' = st)
  ∧ ((Functools.max_size st < size (Functools.files st))%nat →
     ∃ name file,
       Functools.files st !! name = Some file
       ∧ Functools.files st' = delete name (Functools.files st)
       ∧ size (Functools.files st') = pred (size (Functools.files st))
       ∧ Functools.trace st'
         = Functools.trace st ++ [Removed name; Printed (EvictedLRUFile name)]
       ∧ ∀ name' file', Functools.files st !! name' = Some file' →
           (mtime file ≤ mtime file')%Z
           ∧ Functools.entry_le (mtime file, name) (mtime file', name')).
Proof.
  intros st'. destruct (evict_oldest_file_frame st) as (_ & _ & Ho & Hi).
  split; [done|]. split; [done|]. split; [apply evict_oldest_file_within|].
  apply evict_oldest_file_over.
Qed.

Lemma write_file_size name data env (d : Directory) :
  (size (write_file name data env d) ≤ S (size d))%nat.
Proof.
  unfold write_file. destruct (ofstream_ok env); [|lia].
  destruct (d !! name) eqn:Hd.
  - rewrite map_size_insert_Some by done. lia.
  - rewrite map_size_insert_None by done. lia.
Qed.

Lemma functools_fetch_impl_size url env st :
  let st' := (Functools.fetch_impl url env st).2 in
  (size (Functools.files st')
   ≤ max (size (Functools.files st)) (S (Functools.max_size st)))%nat
  ∧ Functools.max_size st' = Functools.max_size st.
Proof.
  destruct (evict_oldest_file_frame st) as (_ & Hm & _).
  assert (size (Functools.files (Functools.evict_oldest_file st))
          ≤ max (pred (size (Functools.files st))) (Functools.max_size st))%nat as Hev.
  { destruct (decide (size (Functools.files st) ≤ Functools.max_size st)%nat) as [Hle|Hgt].
    - rewrite (evict_oldest_file_within st Hle). lia.
    - destruct (evict_oldest_file_over st) as (name & file & _ & _ & -> & _); lia. }
  unfold Functools.fetch_impl. repeat case_decide; simpl; (split; [|done]); try lia.
  pose proof (write_file_size (url_to_filename url) (response_data env) env
                (Functools.files (Functools.evict_oldest_file st))). lia.
Qed.

Lemma functools_call_size c env st :
  (size (Functools.files (Functools.call c env st))
   ≤ max (size (Functools.files st)) (S (Functools.max_size st)))%nat
  ∧ Functools.max_size (Functools.call c env st) = Functools.max_size st.
Proof.
  destruct c as [url|url [|]|];
    [simpl | simpl | simpl
     | change (Functools.call Functools.Clear env st) with (Functools.clear st)].
  - unfold Functools.get, Functools.get_impl.
    destruct (file_exists _ _); [simpl; split; [lia | done]|].
    apply functools_fetch_impl_size.
  - unfold Functools.fetch.
    set (st0 := (if decide (url ∈ Functools.url_to_iterator st) then _ else st)).
    assert (Functools.files st0 = Functools.files st
            ∧ Functools.max_size st0 = Functools.max_size st) as [Hf Hm]
      by (unfold st0; by case_decide).
    destruct (functools_fetch_impl_size url env st0) as [Hs Hm'].
    rewrite Hf, Hm in Hs. by rewrite Hm' , Hm.
  - unfold Functools.fetch, Functools.get_impl.
    destruct (file_exists _ _); [simpl; split; [lia | done]|].
    apply functools_fetch_impl_size.
  - rewrite functools_clear_files, map_size_empty. split; [lia|].
    unfold Functools.clear. simpl.
    by destruct (functools_remove_all (map_to_list (Functools.files st)).*1 st)
      as (_ & _ & _ & ->).
Qed.

Lemma functools_files_bound_max cs st :
  (size (Functools.files (Functools.run cs st))
   ≤ max (size (Functools.files st)) (S (Functools.max_size st)))%nat
  ∧ Functools.max_size (Functools.run cs st) = Functools.max_size st.
Proof.
  revert st. induction cs as [|[c env] cs IH]; intros st; simpl; [split; [lia | done]|].
  destruct (functools_call_size c env st) as [Hsize Hmax].
  destruct (IH (Functools.call c env st)) as [Hs Hm]. rewrite Hmax in Hs, Hm.
  split; [lia | done].
Qed.

(** X10. The directory of the scan-driven variant holds at most
    [max_size + 1] files after any sequence of calls, or as many as it held
    at first when that was more: [fetch_impl] removes at most one file
    before it writes one. *)
Theorem functools_files_bound (cs : list (Functools.Call * Env)) (st : Functools.State) :
  (size (Functools.files (Functools.run cs st))
   ≤ max (size (Functools.files st)) (S (Functools.max_size st)))%nat.
Proof. apply functools_files_bound_max. Qed.

(** ** The scan-driven variant: the access-order list *)



(** X12. From its constructor on, whatever the calls and the answers of
    the network, the scan-driven variant keeps [access_order] free of
    duplicates and [url_to_iterator] defined on exactly the urls of the
    list, so [get_cache_size] is also the size of the map; the cache
    directory name and the capacity stay the ones given to the
    constructor. *)
Theorem functools_reachable
    (cache_dir : string) (max_size : nat) (d : Directory)
    (cs : list (Functools.Call * Env)) :
  let st := Functools.run cs (Functools.new cache_dir max_size d) in
  NoDup (Functools.access_order st)
  ∧ (∀ url, url ∈ Functools.url_to_iterator st ↔ url ∈ Functools.access_order st)
  ∧ size (Functools.url_to_iterator st) = Functools.get_cache_size st
  ∧ Functools.cache_dir st = cache_dir
  ∧ Functools.max_size st = max_size.
Proof.
  intros st.
  pose proof (functools_run_wf cs _ (FunctoolsFacts.new_wf cache_dir max_size d))
    as [Hnd Hdom]. fold st in Hnd, Hdom.
  split; [done|]. split; [done|]. split.
  { unfold Functools.get_cache_size.
    rewrite <- (size_list_to_set (C := gset string)) by exact Hnd.
    f_equal. apply set_eq. intros k. rewrite elem_of_list_to_set. apply Hdom. }
  assert (∀ st0, Functools.cache_dir (Functools.run cs st0) = Functools.cache_dir st0) as Hdir.
  { clear. induction cs as [|[c env] cs IH]; intros st0; simpl; [done|].
    rewrite IH. destruct c as [url|url force|].
    - unfold Functools.call, Functools.get, Functools.get_impl, Functools.fetch_impl.
      destruct (evict_oldest_file_frame st0) as (Hd & _).
      destruct (file_exists _ _); [done|]. by repeat case_decide.
    - unfold Functools.call, Functools.fetch, Functools.get_impl, Functools.fetch_impl.
      destruct force.
      + set (st1 := (if decide (url ∈ Functools.url_to_iterator st0) then _ else st0)).
        assert (Functools.cache_dir st1 = Functools.cache_dir st0) as <-
          by (unfold st1; by case_decide).
        destruct (evict_oldest_file_frame st1) as (Hd & _). by repeat case_decide.
      + destruct (evict_oldest_file_frame st0) as (Hd & _).
        destruct (file_exists _ _); [done|]. by repeat case_decide.
    - change (Functools.call Functools.Clear env st0) with (Functools.clear st0).
      unfold Functools.clear. simpl.
      by destruct (functools_remove_all (map_to_list (Functools.files st0)).*1 st0)
        as (_ & _ & -> & _). }
  split; [apply Hdir|].
  by destruct (functools_files_bound_max cs (Functools.new cache_dir max_size d)).
Qed.

(** ** Keys and cache paths *)

Local Open Scope Z_scope.

Lemma list_ascii_of_string_app s1 s2 :
  list_ascii_of_string (s1 +:+ s2)
  = list_ascii_of_string s1 ++ list_ascii_of_string s2.
Proof.
  induction s1 as [|c s1 IH]; [by rewrite append_empty|].
  rewrite append_String. simpl. by rewrite IH.
Qed.

Lemma hex_digit_hex d :
  0 ≤ d < 16 → hex_digit d ∈ list_ascii_of_string "0123456789abcdef".
Proof.
  intros Hd.
  assert (d = 0 ∨ d = 1 ∨ d = 2 ∨ d = 3 ∨ d = 4 ∨ d = 5 ∨ d = 6 ∨ d = 7
          ∨ d = 8 ∨ d = 9 ∨ d = 10 ∨ d = 11 ∨ d = 12 ∨ d = 13 ∨ d = 14 ∨ d = 15)
    as Hcases by lia.
  repeat (destruct Hcases as [->|Hcases];
          [apply list_elem_of_In; vm_compute;
           repeat (first [left; reflexivity | right])|]).
  subst. apply list_elem_of_In. vm_compute.
  repeat (first [left; reflexivity | right]).
Qed.

Lemma fold_left_append_Forall (P : ascii → Prop) (g : nat → string) l acc :
  Forall P (list_ascii_of_string acc) →
  (∀ i, Forall P (list_ascii_of_string (g i))) →
  Forall P (list_ascii_of_string (fold_left (fun ss i => ss +:+ g i) l acc)).
Proof.
  intros Hacc Hg. revert acc Hacc.
  induction l as [|i l IH]; intros acc Hacc; simpl; [done|].
  apply IH. rewrite list_ascii_of_string_app. apply Forall_app. by split.
Qed.

Lemma md5_hash_hex input :
  Forall (fun ch => ch ∈ list_ascii_of_string "0123456789abcdef")
         (list_ascii_of_string (md5_hash input)).
Proof.
  unfold md5_hash. apply fold_left_append_Forall; [constructor|].
  intros i. pose proof (digest_range (bytes_of_string input) i) as Hb.
  unfold hex_byte.
  change (list_ascii_of_string (String ?c ?s)) with (c :: list_ascii_of_string s).
  apply Forall_cons_2; [|apply Forall_cons_2; [|apply Forall_nil_2]];
    apply hex_digit_hex.
  - split; [apply Z.div_pos; lia | apply Z.div_lt_upper_bound; lia].
  - apply Z.mod_pos_bound. lia.
Qed.

Lemma path_extension_period p :
  path_extension p = EmptyString ∨ ∃ ext, path_extension p = String "." ext.
Proof.
  unfold path_extension. case_decide; [by left|].
  destruct (rfind "." (path_filename p)) as [[|pos]|] eqn:Hr; [by left | | by left].
  right. rewrite (rfind_Some _ _ _ Hr). by eexists.
Qed.

(** X13. Every key has the same shape: the 32 lower-case hexadecimal
    digits of the digest, then an extension that starts with a period. A
    key holds no directory separator. *)
Theorem url_to_filename_format (url : string) :
  String.length (md5_hash url) = 32%nat
  ∧ Forall (fun ch => ch ∈ list_ascii_of_string "0123456789abcdef")
           (list_ascii_of_string (md5_hash url))
  ∧ (∃ ext, url_to_filename url = md5_hash url +:+ String "." ext)
  ∧ rfind "/" (url_to_filename url) = None.
Proof.
  split; [apply md5_hash_length|]. split; [apply md5_hash_hex|].
  split; [|apply url_to_filename_no_separator].
  unfold url_to_filename.
  destruct (path_extension_period url) as [->|[ext ->]].
  - rewrite decide_True by done. by exists "jpg".
  - rewrite decide_False by done. by exists ext.
Qed.


(** ** The hexadecimal rendering of the digest loses nothing *)

Lemma fold_left_append (g : nat → string) (l : list nat) (acc : string) :
  fold_left (fun ss i => ss +:+ g i) l acc
  = acc +:+ fold_right (fun i s => g i +:+ s) EmptyString l.
Proof.
  revert acc. induction l as [|i l IH]; intros acc; simpl.
  - clear. induction acc as [|c acc IH]; [done|]. rewrite append_String. by rewrite <- IH.
  - rewrite IH. clear. induction acc as [|c acc IH]; [done|].
    rewrite !append_String. by rewrite IH.
Qed.

Lemma hex_digit_inj d1 d2 :
  0 ≤ d1 < 16 → 0 ≤ d2 < 16 → hex_digit d1 = hex_digit d2 → d1 = d2.
Proof.
  intros H1 H2 Heq. apply (f_equal nat_of_ascii) in Heq. unfold hex_digit in Heq.
  rewrite !nat_ascii_embedding in Heq.
  - destruct (d1 <? 10) eqn:E1, (d2 <? 10) eqn:E2;
      try apply Z.ltb_lt in E1; try apply Z.ltb_lt in E2;
      try apply Z.ltb_ge in E1; try apply Z.ltb_ge in E2; lia.
  - destruct (d2 <? 10); lia.
  - destruct (d1 <? 10); lia.
Qed.

Lemma hex_byte_inj b1 b2 :
  0 ≤ b1 < 256 → 0 ≤ b2 < 256 → hex_byte b1 = hex_byte b2 → b1 = b2.
Proof.
  intros H1 H2. unfold hex_byte. intros [= Hhi Hlo].
  apply hex_digit_inj in Hhi, Hlo;
    try (split; [apply Z.div_pos; lia | apply Z.div_lt_upper_bound; lia]);
    try (apply Z.mod_pos_bound; lia).
  rewrite (Z.div_mod b1 16), (Z.div_mod b2 16) by lia. congruence.
Qed.

Lemma hex_bytes_inj (g1 g2 : nat → Z) (l : list nat) :
  fold_right (fun i s => hex_byte (g1 i) +:+ s) EmptyString l
  = fold_right (fun i s => hex_byte (g2 i) +:+ s) EmptyString l →
  ∀ i, i ∈ l → hex_byte (g1 i) = hex_byte (g2 i).
Proof.
  induction l as [|j l IH]; simpl; intros Heq i Hi.
  - by apply elem_of_nil in Hi.
  - unfold hex_byte in Heq at 1 3. rewrite !append_String, !append_empty in Heq.
    injection Heq as Hhi Hlo Hrest.
    apply elem_of_cons in Hi as [->|Hi]; [|by apply IH].
    unfold hex_byte. by rewrite Hhi, Hlo.
Qed.

Lemma digest_length msg : length (MD5.digest msg) = 16%nat.
Proof. unfold MD5.digest. by rewrite !length_app. Qed.

(** X15. [md5_hash] renders the sixteen digest bytes without loss: two
    inputs get the same hexadecimal string exactly when their digests are
    the same bytes. *)
Theorem md5_hash_eq_iff (input1 input2 : string) :
  md5_hash input1 = md5_hash input2
  ↔ MD5.digest (bytes_of_string input1) = MD5.digest (bytes_of_string input2).
Proof.
  split; [|unfold md5_hash; by intros ->].
  unfold md5_hash. rewrite !fold_left_append, !append_empty. intros Heq.
  pose proof (hex_bytes_inj _ _ _ Heq) as Hbytes.
  apply (nth_ext _ _ 0 0); [by rewrite !digest_length|].
  intros i Hi. rewrite digest_length in Hi.
  apply hex_byte_inj; [apply digest_range | apply digest_range |].
  apply Hbytes. apply elem_of_seq. unfold MD5_DIGEST_LENGTH. lia.
Qed.

Local Close Scope Z_scope.

(** ** The write callback *)

Lemma string_take_all s : string_take (String.length s) s = s.
Proof. induction s as [|c s IH]; simpl; [done | by rewrite IH]. Qed.

Lemma append_assoc s1 s2 s3 : (s1 +:+ s2) +:+ s3 = s1 +:+ s2 +:+ s3.
Proof.
  induction s1 as [|d s1 IH]; [by rewrite !append_empty|].
  rewrite !append_String. by rewrite IH.
Qed.

Lemma append_empty_r s : s +:+ EmptyString = s.
Proof. induction s as [|c s IH]; [done|]. rewrite append_String. by rewrite IH. Qed.

(** X16. When every buffer holds exactly the [size * nmemb] bytes it is
    announced with (a product below [2^64]), successive calls of
    [WriteCallback] return the length of each buffer, which is what
    libcurl requires to go on, and leave behind [userp] what was there
    followed by all the buffers in order: nothing is lost, repeated or
    reordered. *)
Theorem WriteCallback_accumulates (chunks : list (string * Z * Z)) (userp : string) :
  Forall (fun ch : string * Z * Z =>
            (0 ≤ ch.1.2 * ch.2 < 2 ^ 64)%Z
            ∧ Z.of_nat (String.length ch.1.1) = (ch.1.2 * ch.2)%Z) chunks →
  foldl (fun data ch => (WriteCallback ch.1.1 ch.1.2 ch.2 data).2) userp chunks
  = userp +:+ fold_right (fun ch s => ch.1.1 +:+ s) EmptyString chunks
  ∧ Forall (fun ch : string * Z * Z =>
              ∀ data, (WriteCallback ch.1.1 ch.1.2 ch.2 data).1
                      = Z.of_nat (String.length ch.1.1)) chunks.
Proof.
  intros Hok. split.
  - revert userp. induction Hok as [|[[contents size] nmemb] chunks [Hn Hlen] _ IH];
      intros userp; simpl in *.
    + by rewrite append_empty_r.
    + rewrite IH. unfold WriteCallback. simpl.
      rewrite Z.mod_small by done. rewrite <- Hlen, Nat2Z.id, string_take_all.
      by rewrite append_assoc.
  - eapply Forall_impl; [exact Hok|]. intros [[contents size] nmemb] [Hn Hlen] data.
    simpl in *. rewrite Z.mod_small by done. done.
Qed.

Lemma WriteCallback_accumulates_witness :
  foldl (fun data ch => (WriteCallback ch.1.1 ch.1.2 ch.2 data).2) EmptyString
        [("GIF8", 1%Z, 4%Z); ("9a", 2%Z, 1%Z)]
  = "GIF89a".
Proof.
  destruct (WriteCallback_accumulates [("GIF8", 1%Z, 4%Z); ("9a", 2%Z, 1%Z)] EmptyString)
    as [Hdata _].
  - repeat constructor; simpl; lia.
  - rewrite Hdata. reflexivity.
Defined.

(** ** Instances of the properties above *)

Lemma put_then_get_witness :
  match LRUCache.put "k" "v2" (LRUCache.State 2 [("k", "v1"); ("j", "w")] {["k"; "j"]}) with
  | Some c' => LRUCache.get "k" c' = (Some "v2", c')
               ∧ LRUCache.contains "k" c' = true
  | None => False
  end.
Proof.
  destruct (LRUCache.put "k" "v2"
              (LRUCache.State 2 [("k", "v1"); ("j", "w")] {["k"; "j"]}))
    as [c'|] eqn:Hput.
  - exact (put_then_get "k" "v2" _ c' Hput).
  - vm_compute in Hput. discriminate Hput.
Defined.

Lemma put_keeps_other_values_witness :
  let c := LRUCache.State 2 [("k", "v1"); ("j", "w")] {["k"; "j"]} in
  match LRUCache.put "n" "x" c with
  | Some c' => ("k" ∈ LRUCache.cache c) ∧ (LRUCache.get "k" c').1 = Some "v1"
  | None => False
  end.
Proof.
  intros c. destruct (LRUCache.put "n" "x" c) as [c'|] eqn:Hput.
  - destruct (put_keeps_other_values "n" "x" "k" c c') as [Hin Hget].
    + apply wf_intro; compute_done.
    + exact Hput.
    + discriminate.
    + vm_compute in Hput. injection Hput as <-. compute_done.
    + split; [exact Hin|]. rewrite Hget. vm_compute. reflexivity.
  - vm_compute in Hput. discriminate Hput.
Defined.

Lemma put_existing_witness :
  let c := LRUCache.State 2 [("k", "v1"); ("j", "w")] {["k"; "j"]} in
  ∃ c', LRUCache.put "j" "w2" c = Some c'
        ∧ LRUCache.keys c' = ["j"; "k"]
        ∧ LRUCache.size c' = 2%nat.
Proof.
  intros c. destruct (put_existing "j" "w2" c) as (c' & Hput & Hkeys & _ & Hsize).
  - apply wf_intro; compute_done.
  - compute_done.
  - exists c'. split; [exact Hput|]. split; [|exact Hsize].
    rewrite Hkeys. vm_compute. reflexivity.
Defined.

Lemma put_fresh_witness :
  let c := LRUCache.State 2 [("k", "v1"); ("j", "w")] {["k"; "j"]} in
  ∃ c', LRUCache.put "n" "x" c = Some c'
        ∧ LRUCache.keys c' = ["n"; "k"]
        ∧ ("j" ∉ LRUCache.cache c').
Proof.
  intros c. destruct (put_fresh "n" "x" c) as (c' & Hput & Hcase).
  - apply wf_intro; compute_done.
  - compute_done.
  - simpl. lia.
  - unfold LRUCache.size. simpl. lia.
  - rewrite decide_False in Hcase by (unfold LRUCache.size; simpl; lia).
    destruct Hcase as (lru & Hlast & Hkeys & _ & Hout & _).
    injection Hlast as <-.
    exists c'. split; [exact Hput|]. split; [exact Hkeys | exact Hout].
Defined.

Lemma plain_reachable_witness :
  match Plain.run (plain_gets test_urls) (Plain.new ".image_cache" 3 ∅) with
  | Some st => NoDup (LRUCache.keys (Plain.lru_cache st))
               ∧ size (LRUCache.cache (Plain.lru_cache st)) = Plain.get_cache_size st
               ∧ Plain.max_size st = 3%nat
  | None => False
  end.
Proof.
  destruct (Plain.run (plain_gets test_urls) (Plain.new ".image_cache" 3 ∅))
    as [st|] eqn:Hrun.
  - destruct (plain_reachable _ _ _ _ _ Hrun) as (Hnd & _ & Hsize & _ & _ & Hmax & _).
    split; [exact Hnd|]. split; [exact Hsize | exact Hmax].
  - vm_compute in Hrun. discriminate Hrun.
Defined.


Lemma plain_cached_forever_witness :
  let d : Directory :=
    {[ "d9e12899c916d19ce7166a7f91025b87.jpg" := {| mtime := 0; content := "old" |} ]} in
  match Plain.run (plain_gets [url_B; url_C; url_D; url_E])
                  (Plain.new ".image_cache" 3 d) with
  | Some st => Plain.is_cached url_A st = true
  | None => False
  end.
Proof.
  intros d.
  destruct (Plain.run (plain_gets [url_B; url_C; url_D; url_E])
                      (Plain.new ".image_cache" 3 d)) as [st|] eqn:Hrun.
  - apply (plain_cached_forever url_A _ _ st) in Hrun.
    + exact Hrun.
    + repeat constructor; discriminate.
    + vm_compute. reflexivity.
  - vm_compute in Hrun. discriminate Hrun.
Defined.

Lemma evict_oldest_file_oldest_witness :
  let d : Directory := {[ "a.jpg" := {| mtime := 7; content := "x" |};
                          "b.jpg" := {| mtime := 5; content := "y" |} ]} in
  let st := Functools.new ".image_cache" 1 d in
  ∃ name file,
    d !! name = Some file
    ∧ Functools.files (Functools.evict_oldest_file st) = delete name d
    ∧ (mtime file ≤ 5)%Z.
Proof.
  intros d st.
  destruct (evict_oldest_file_oldest st) as (_ & _ & _ & Hover).
  destruct Hover as (name & file & Hin & Hfiles & _ & _ & Hleast).
  - vm_compute. lia.
  - exists name, file. split; [exact Hin|]. split; [exact Hfiles|].
    apply (Hleast "b.jpg" {| mtime := 5; content := "y" |}). compute_done.
Defined.

(** X19. An entry that was just touched is not the next one to go: when a
    new key is put after [touch a] (with room left, or with at least two
    entries), [a] is still in the cache, second in the list behind the new
    key. *)
Theorem touched_survives {Key} `{Countable Key} {Value}
    (key a : Key) (value : Value) (c : LRUCache.state Key Value) :
  LRUCache.wf c → a ∈ LRUCache.cache c → key ∉ LRUCache.cache c →
  (LRUCache.size c < LRUCache.max_size c ∨ 2 ≤ LRUCache.size c)%nat →
  ∃ c', LRUCache.put key value (LRUCache.touch a c) = Some c'
        ∧ a ∈ LRUCache.cache c'
        ∧ LRUCache.keys c' !! 0%nat = Some key
        ∧ LRUCache.keys c' !! 1%nat = Some a.
Proof.
  intros Hwf Ha Hkey Hsize.
  pose proof (touch_keys a c Hwf Ha) as Hkeys.
  pose proof (touch_size a c) as Hsz. pose proof (touch_cache a c) as Hcache.
  pose proof (touch_max_size a c) as Hmax.
  set (t := LRUCache.touch a c) in *.
  assert (key ∉ LRUCache.cache t) as Hkey' by by rewrite Hcache.
  unfold LRUCache.size, LRUCache.keys in *.
  destruct (decide (length (LRUCache.items t) < LRUCache.max_size t)%nat) as [Hroom|Hfull].
  - rewrite put_fresh_room by done. eexists. split; [done|].
    cbn [LRUCache.items LRUCache.cache]. rewrite fmap_cons.
    split; [apply elem_of_union_r; by rewrite Hcache|].
    split; [done|].
    change ((LRUCache.items t).*1 !! 0%nat = Some a). by rewrite Hkeys.
  - destruct Hsize as [Hlt|Htwo]; [lia|].
    destruct (LRUCache.items t) as [|na l'] eqn:Hitems; [simpl in Hsz; lia|].
    rewrite fmap_cons in Hkeys. injection Hkeys as Hna Hl'.
    destruct (last l') as [n|] eqn:Hlast.
    2:{ apply last_None in Hlast. subst l'. simpl in Hsz. lia. }
    assert (last (LRUCache.items t) = Some n) as Hlast'.
    { rewrite Hitems. destruct l'; [done | exact Hlast]. }
    assert (n.1 ≠ a) as Hn.
    { apply last_Some in Hlast as [l'' ->].
      assert (n.1 ∈ (l'' ++ [n]).*1) as Hin
        by (rewrite fmap_app; apply elem_of_app; right; left).
      rewrite Hl' in Hin. apply list_elem_of_filter in Hin. by destruct Hin. }
    rewrite (put_fresh_full key value t n);
      [| done | rewrite Hitems; lia | done].
    eexists. split; [done|].
    cbn [LRUCache.items LRUCache.cache]. rewrite fmap_cons.
    split; [|split; [done|]].
    + apply elem_of_union_r, elem_of_difference. rewrite Hcache, elem_of_singleton.
      split; [done | congruence].
    + rewrite Hitems. destruct l' as [|m l']; [done|].
      change (removelast (na :: m :: l')) with (na :: removelast (m :: l')).
      rewrite fmap_cons. simpl. by rewrite Hna.
Qed.

Lemma touched_survives_witness :
  let c := LRUCache.State 2 [("k", "v1"); ("j", "w")] {["k"; "j"]} in
  ∃ c', LRUCache.put "n" "x" (LRUCache.touch "j" c) = Some c'
        ∧ ("j" ∈ LRUCache.cache c').
Proof.
  intros c.
  destruct (touched_survives "n" "j" "x" c) as (c' & Hput & Hin & _).
  - apply wf_intro; compute_done.
  - compute_done.
  - compute_done.
  - right. unfold LRUCache.size. simpl. lia.
  - exists c'. split; [exact Hput | exact Hin].
Defined.

(** ** The index and the directory of the index-driven variant *)

Lemma put_cache_elem_of {Key} `{Countable Key} {Value}
    (key k : Key) (value : Value) (c c' : LRUCache.state Key Value) :
  LRUCache.put key value c = Some c' → k ∈ LRUCache.cache c' →
  k = key ∨ k ∈ LRUCache.cache c.
Proof.
  unfold LRUCache.put. case_decide; [|case_decide; [destruct (last _)|]];
    intros [= <-]; simpl; rewrite elem_of_union, ?elem_of_difference, elem_of_singleton;
    tauto.
Qed.

Local Abbreviation indexed_on_disk st :=
  (∀ url, url ∈ LRUCache.cache (Plain.lru_cache st) →
          is_Some (Plain.files st !! url_to_filename url)).

Lemma plain_fetch_impl_on_disk url env st r st' :
  ofstream_ok env = true → indexed_on_disk st →
  Plain.fetch_impl url env st = Some (r, st') → indexed_on_disk st'.
Proof.
  intros Hok Hinv. unfold Plain.fetch_impl. rewrite PlainFacts.evict_lru_id.
  repeat case_decide; simpl; try (by intros [= <- <-]).
  destruct (LRUCache.put _ _ _) as [c'|] eqn:Hput; [|done].
  intros [= <- <-] k Hk. simpl in *. unfold write_file. rewrite Hok.
  apply lookup_insert_is_Some'.
  destruct (put_cache_elem_of _ _ _ _ _ Hput Hk) as [-> | Hin]; [by left|].
  right. by apply Hinv.
Qed.

Lemma plain_call_on_disk c env st st' :
  ofstream_ok env = true → indexed_on_disk st →
  Plain.call c env st = Some st' → indexed_on_disk st'.
Proof.
  intros Hok Hinv. destruct c as [url|url force|]; simpl.
  - unfold Plain.get, Plain.fetch. destruct (file_exists _ _); simpl.
    + intros [= <-] k. simpl. rewrite touch_cache. apply Hinv.
    + destruct (Plain.fetch_impl url env st) as [[r st1]|] eqn:Hf; [|done].
      intros [= <-]. by eapply plain_fetch_impl_on_disk.
  - unfold Plain.fetch. destruct (negb force && file_exists _ _); simpl.
    + intros [= <-] k. simpl. rewrite touch_cache. apply Hinv.
    + destruct (Plain.fetch_impl url env st) as [[r st1]|] eqn:Hf; [|done].
      intros [= <-]. by eapply plain_fetch_impl_on_disk.
  - intros [= <-] k. unfold Plain.clear. simpl. by intros ?%not_elem_of_empty.
Qed.

(** X20. As long as every cache file could be opened for writing, the
    index of the index-driven variant only names urls whose file is in the
    cache directory, in every state reached from the constructor: an entry
    is made after its file is written, and files go only in [clear], which
    empties the index too. *)
Theorem plain_indexed_is_cached
    (cache_dir : string) (max_size : nat) (d : Directory)
    (cs : list (Plain.Call * Env)) (st : Plain.State) (url : string) :
  Forall (fun c : Plain.Call * Env => ofstream_ok c.2 = true) cs →
  Plain.run cs (Plain.new cache_dir max_size d) = Some st →
  LRUCache.contains url (Plain.lru_cache st) = true →
  Plain.is_cached url st = true.
Proof.
  intros Hcs Hrun Hcontains.
  assert (∀ st0, indexed_on_disk st0 → Plain.run cs st0 = Some st →
                 indexed_on_disk st) as Hgen.
  { clear Hrun. induction cs as [|[c env] cs IH]; intros st0 Hinv; simpl.
    - by intros [= <-].
    - apply Forall_cons in Hcs as [Hok Hcs].
      destruct (Plain.call c env st0) as [st1|] eqn:Hcall; [|done].
      apply (IH Hcs). by eapply plain_call_on_disk. }
  apply bool_decide_eq_true in Hcontains.
  apply bool_decide_eq_true. refine (Hgen _ _ Hrun url Hcontains).
  intros k Hk. by apply not_elem_of_empty in Hk.
Qed.

Lemma plain_indexed_is_cached_witness :
  ∃ st, Plain.run (plain_gets test_urls) (Plain.new ".image_cache" 3 ∅) = Some st
        ∧ Plain.is_cached "https://httpbin.org/image/svg" st = true.
Proof.
  destruct (Plain.run (plain_gets test_urls) (Plain.new ".image_cache" 3 ∅))
    as [st|] eqn:Hrun; [|by vm_compute in Hrun].
  exists st. split; [done|].
  apply (plain_indexed_is_cached ".image_cache" 3 ∅ (plain_gets test_urls) st).
  - repeat (apply Forall_cons; split; [reflexivity|]). apply Forall_nil_2.
  - exact Hrun.
  - assert (LRUCache.contains "https://httpbin.org/image/svg" <$>
              (Plain.lru_cache <$> Plain.run (plain_gets test_urls)
                                     (Plain.new ".image_cache" 3 ∅)) = Some true)
      as Hc by (vm_compute; reflexivity).
    rewrite Hrun in Hc. by injection Hc.
Defined.

(** X21. A [get] or a [fetch] of the index-driven variant touches at most
    one file, the cache file of its url: either the directory is as before,
    or the transfer ended with [CURLE_OK] and status 200, the stream opened,
    and the directory differs by that one file, which now holds the bytes
    received, stamped with the time of the write. *)
Theorem plain_files_frame (url : string) (force : bool) (env : Env)
    (st : Plain.State) (r : option string) (st' : Plain.State) :
  Plain.get url env st = Some (r, st') ∨ Plain.fetch url force env st = Some (r, st') →
  Plain.files st' = Plain.files st
  ∨ (res env = CURLE_OK ∧ response_code env = 200%Z ∧ ofstream_ok env = true
     ∧ r = Some (get_cache_path (Plain.cache_dir st) url)
     ∧ Plain.files st'
       = <[url_to_filename url := {| mtime := now env; content := response_data env |}]>
           (Plain.files st)).
Proof.
  assert (Plain.fetch_impl url env st = Some (r, st') →
    Plain.files st' = Plain.files st
    ∨ (res env = CURLE_OK ∧ response_code env = 200%Z ∧ ofstream_ok env = true
       ∧ r = Some (get_cache_path (Plain.cache_dir st) url)
       ∧ Plain.files st'
         = <[url_to_filename url := {| mtime := now env; content := response_data env |}]>
             (Plain.files st))) as Himpl.
  { unfold Plain.fetch_impl. rewrite PlainFacts.evict_lru_id.
    case_decide as Hres; [case_decide as Hcode|]; simpl;
      try (intros [= <- <-]; by left).
    destruct (LRUCache.put _ _ _); [|done]. intros [= <- <-]. simpl.
    unfold write_file. destruct (ofstream_ok env); [right | left]; done. }
  intros [Hget | Hfetch].
  - unfold Plain.get, Plain.fetch in Hget.
    destruct (file_exists _ _); simpl in Hget; [|by apply Himpl].
    injection Hget as <- <-. by left.
  - unfold Plain.fetch in Hfetch.
    destruct (negb force && file_exists _ _); simpl in Hfetch; [|by apply Himpl].
    injection Hfetch as <- <-. by left.
Qed.

Lemma plain_files_frame_witness :
  ∃ st', snd <$> Plain.get url_A (downloaded 7) (Plain.new "dir" 2 ∅) = Some st'
         ∧ Plain.files st' !! url_to_filename url_B = None.
Proof.
  destruct (Plain.get url_A (downloaded 7) (Plain.new "dir" 2 ∅))
    as [[r st']|] eqn:Hget; [|by vm_compute in Hget].
  exists st'. split; [done|].
  destruct (plain_files_frame url_A false (downloaded 7) _ r st' (or_introl Hget))
    as [-> | (_ & _ & _ & _ & ->)].
  - done.
  - apply lookup_insert_None. split; [done|]. by vm_compute.
Defined.

(** X22. What was downloaded is what is served next. When the transfer
    ends with [CURLE_OK] and status 200 and the stream opens, [fetch_impl]
    returns the cache path, the cache file holds exactly the bytes
    received, the url is the most recent one of the index, and a [get] of
    the same url right after returns the same path without a transfer and
    without touching the directory. This holds for both variants (for the
    index-driven one, where [fetch_impl] is defined). *)
Theorem download_round_trip (url : string) (env env' : Env)
    (f : Functools.State) (p : Plain.State) :
  res env = CURLE_OK → response_code env = 200%Z → ofstream_ok env = true →
  (let r := (Functools.fetch_impl url env f).1 in
   let f' := (Functools.fetch_impl url env f).2 in
   r = Some (get_cache_path (Functools.cache_dir f) url)
   ∧ Functools.files f' !! url_to_filename url
     = Some {| mtime := now env; content := response_data env |}
   ∧ last (Functools.access_order f') = Some url
   ∧ (Functools.get url env' f').1 = r
   ∧ Functools.files (Functools.get url env' f').2 = Functools.files f'
   ∧ Functools.trace (Functools.get url env' f').2
     = Functools.trace f'
       ++ [Touched url;
           Printed (UsingCachedImage (get_cache_path (Functools.cache_dir f) url))])
  ∧ (∀ r p', Plain.fetch_impl url env p = Some (r, p') →
       r = Some (get_cache_path (Plain.cache_dir p) url)
       ∧ Plain.files p' !! url_to_filename url
         = Some {| mtime := now env; content := response_data env |}
       ∧ head (LRUCache.keys (Plain.lru_cache p')) = Some url
       ∧ ∃ p'', Plain.get url env' p' = Some (r, p'')
                ∧ Plain.files p'' = Plain.files p'
                ∧ Plain.trace p'' = Plain.trace p' ++ [Touched url]).
Proof.
  intros Hres Hcode Hok. split.
  - assert (Functools.fetch_impl url env f
            = (Some (get_cache_path (Functools.cache_dir f) url),
               Functools.emit (Printed (CachedImage (get_cache_path (Functools.cache_dir f) url)
                                          (String.length (response_data env))))
                 (Functools.emit (Indexed url)
                    (Functools.touch_url url
                       (Functools.emit (Wrote (url_to_filename url) (response_data env) true)
                          (Functools.with_files
                             (write_file (url_to_filename url) (response_data env) env
                                (Functools.files (Functools.evict_oldest_file f)))
                             (Functools.emit (Fetched url)
                                (Functools.evict_oldest_file f)))))))) as Heq.
    { unfold Functools.fetch_impl. rewrite decide_True by done.
      rewrite decide_True by done. by rewrite Hok. }
    rewrite Heq. cbn zeta. cbn [fst snd].
    set (f' := Functools.emit _ _).
    assert (Functools.files f' !! url_to_filename url
            = Some {| mtime := now env; content := response_data env |}) as Hfile.
    { subst f'. simpl. unfold write_file. rewrite Hok. apply lookup_insert_eq. }
    assert (Functools.cache_dir f' = Functools.cache_dir f) as Hdir.
    { subst f'. simpl. by destruct (evict_oldest_file_frame f) as (-> & _). }
    split; [done|]. split; [done|]. split.
    { subst f'. simpl. apply last_snoc. }
    rewrite functools_get_hit.
    2:{ unfold Functools.is_cached, file_exists. apply bool_decide_eq_true.
        rewrite Hfile. by eexists. }
    rewrite Hdir. simpl. split; [done|]. split; [done|].
    by rewrite <- app_assoc.
  - intros r p'. unfold Plain.fetch_impl. rewrite PlainFacts.evict_lru_id.
    rewrite decide_True by done. rewrite decide_True by done. simpl.
    destruct (LRUCache.put _ _ _) as [c'|] eqn:Hput; [|done].
    intros [= <- <-]. simpl.
    assert (write_file (url_to_filename url) (response_data env) env (Plain.files p)
              !! url_to_filename url
            = Some {| mtime := now env; content := response_data env |}) as Hfile.
    { unfold write_file. rewrite Hok. apply lookup_insert_eq. }
    split; [done|]. split; [done|]. split.
    { by destruct (put_Some _ _ _ _ Hput) as (Hhead & _). }
    rewrite plain_get_hit.
    2:{ unfold Plain.is_cached, file_exists. simpl. apply bool_decide_eq_true.
        rewrite Hfile. by eexists. }
    eexists. split; [done|]. done.
Qed.

Lemma download_round_trip_witness :
  (Functools.get url_A (timed_out 9)
     (Functools.fetch_impl url_A (downloaded 7) (Functools.new "dir" 0 ∅)).2).1
  = Some (get_cache_path "dir" url_A).
Proof.
  destruct (download_round_trip url_A (downloaded 7) (timed_out 9)
              (Functools.new "dir" 0 ∅) (Plain.new "dir" 1 ∅))
    as [(Hr & _ & _ & Hget & _) _]; [reflexivity | reflexivity | reflexivity |].
  cbn zeta in Hr, Hget. rewrite Hget. exact Hr.
Defined.
